(** * redis-utils: a shallow embedding of the pool, the cache proxy and the
      duration formatter, with the properties stated about them.

    The development follows the three source files:
    - [Utils]      : [formatDuration] (utils.ts);
    - [Js]         : the fragment of JavaScript the code relies on
                     (values, truthiness, promises that settle once);
    - [RedisPool]  : the command executor, the store commands, the
                     healthcheck and the connection factory (pool.ts);
    - [RedisCache] : the cache-aside proxy (cache.ts).

    Asynchronous functions are state transformers returning an [outcome]:
    resolved, rejected, or pending for ever.  The connection pool
    (generic-pool), the transport (node_redis) and the store are external:
    what they answer is given by an environment [env]. *)

From Stdlib Require Import ZArith Lia Ascii String.
From stdpp Require Import base strings list gmap pretty.

Open Scope string_scope.
Open Scope list_scope.
Open Scope Z_scope.

(* ===================================================================== *)
(** ** utils.ts *)
(* ===================================================================== *)

Module Utils.

(** [const nanosecondsPerMillisecond = 10e5] *)
Definition nanosecondsPerMillisecond : Z := 1000000.
Definition oneMinute : Z := 60.
Definition oneHour : Z := 60 * 60.

(** A [process.hrtime()] reading: whole seconds and the nanoseconds left. *)
Definition hrtime : Type := Z * Z.

(** Template-literal rendering of an integral number. *)
Definition show (n : Z) : string := pretty n.

Definition digit (k : Z) : ascii := ascii_of_nat (48 + Z.to_nat k).

(** The six decimal digits of [n], most significant first (the string [m]
    of [Number.prototype.toPrecision] for precision 6). *)
Definition mantissa (n : Z) : list ascii :=
  [ digit (n / 100000 mod 10); digit (n / 10000 mod 10);
    digit (n / 1000 mod 10); digit (n / 100 mod 10);
    digit (n / 10 mod 10); digit (n mod 10) ].

(** Number of decimal digits of a positive integer, by repeated division
    ([fuel] bounds the number of digits looked at). *)
Fixpoint ndigits_aux (fuel : nat) (n : Z) : Z :=
  match fuel with
  | O => 0
  | S fuel' => if n <? 10 then 1 else 1 + ndigits_aux fuel' (n / 10)
  end.

Definition ndigits (n : Z) : Z := ndigits_aux (S (Z.to_nat (Z.log2 n))) n.

(** The quotient [ns / nanosecondsPerMillisecond] as the code computes it,
    in binary floating point, for an integer [0 < ns < 2^53]: the double
    nearest to [ns / 10^6] is [m / 2^k], where [k] is such that the
    quotient scaled by [2^k] lies in [[2^52, 2^53)] and [m] is that scaled
    quotient rounded to the nearest integer, to the even one on a tie. *)
Definition quotient (ns : Z) : Z * Z :=
  let k0 := 71 - Z.log2 ns in
  let k := if 2 ^ 52 * nanosecondsPerMillisecond <=? ns * 2 ^ k0
           then k0 else k0 + 1 in
  let num := ns * 2 ^ k in
  let q := num / nanosecondsPerMillisecond in
  let r := num mod nanosecondsPerMillisecond in
  let m := if 2 * r <? nanosecondsPerMillisecond then q
           else if nanosecondsPerMillisecond <? 2 * r then q + 1
           else if Z.even q then q else q + 1 in
  (m, k).

(** [(n, e)] of [toPrecision(6)] for that double: [10^5 <= n < 10^6] and
    [n * 10^(e-5)] is as close to the double as possible, the larger [n]
    on a tie.  The exponent is first taken from the number of digits of
    [ns]; rounding can carry into the next one. *)
Definition scale (ns : Z) : Z * Z :=
  let e := ndigits ns - 7 in
  let '(m, k) := quotient ns in
  let a := m * 10 ^ Z.max 0 (5 - e) in
  let b := 2 ^ k * 10 ^ Z.max 0 (e - 5) in
  let n := (2 * a + b) / (2 * b) in
  if n =? 1000000 then (100000, e + 1) else (n, e).

Definition string_of_list (l : list ascii) : string :=
  foldr String EmptyString l.

(** [(nanoseconds / nanosecondsPerMillisecond).toPrecision(6)] for an
    integral number of nanoseconds. *)
Definition toPrecision6 (ns : Z) : list ascii :=
  if ns =? 0 then [ "0"; "."; "0"; "0"; "0"; "0"; "0" ]%char
  else
    let sign := if ns <? 0 then [ "-"%char ] else [] in
    let '(n, e) := scale (Z.abs ns) in
    let m := mantissa n in
    if (e <? -6) || (6 <=? e) then
      (* exponential notation *)
      sign ++ take 1 m ++ [ "."%char ] ++ drop 1 m ++ [ "e"%char ]
           ++ (if 0 <=? e then [ "+"%char ] else [ "-"%char ])
           ++ list_ascii_of_string (show (Z.abs e))
    else if e =? 5 then sign ++ m
    else if 0 <=? e then
      sign ++ take (Z.to_nat (e + 1)) m ++ [ "."%char ]
           ++ drop (Z.to_nat (e + 1)) m
    else
      sign ++ [ "0"; "." ]%char ++ replicate (Z.to_nat (- (e + 1))) "0"%char ++ m.

Definition formatDuration (t : hrtime) : string :=
  let '(wholeSeconds, nanoseconds) := t in
  let milliseconds := string_of_list (toPrecision6 nanoseconds) +:+ "ms" in
  if wholeSeconds <? 1 then milliseconds
  else if wholeSeconds <? oneMinute then
    show wholeSeconds +:+ "sec " +:+ milliseconds
  else if wholeSeconds <? oneHour then
    let minutes := wholeSeconds / oneMinute in
    let remainingSeconds := Z.rem wholeSeconds oneMinute in
    show minutes +:+ "min " +:+ show remainingSeconds +:+ "sec " +:+ milliseconds
  else
    let hours := wholeSeconds / oneHour in
    let remainingMinutes := Z.rem wholeSeconds oneHour / oneMinute in
    let remainingSeconds := Z.rem (Z.rem wholeSeconds oneHour) oneMinute in
    show hours +:+ "hr " +:+ show remainingMinutes +:+ "min "
      +:+ show remainingSeconds +:+ "sec " +:+ milliseconds.

(** Counting significant digits of a decimal rendering: the digits from
    the first non-zero one on; a rendering of zero counts all its digits. *)
Definition is_digit (c : ascii) : bool :=
  let n := nat_of_ascii c in (48 <=? n)%nat && (n <=? 57)%nat.

Definition is_zero_or_dot (c : ascii) : bool :=
  (nat_of_ascii c =? 48)%nat || (nat_of_ascii c =? 46)%nat.

Fixpoint strip_leading (l : list ascii) : list ascii :=
  match l with
  | c :: l' => if is_zero_or_dot c then strip_leading l' else l
  | [] => []
  end.

Definition count_digits (l : list ascii) : nat :=
  length (filter (λ c, is_digit c = true) l).

Definition significant (l : list ascii) : nat :=
  match strip_leading l with
  | [] => count_digits l
  | rest => count_digits rest
  end.

(** Reading a decimal rendering back: the integer its digits spell and
    the number of digits after the point, so that ["4.56700"] reads as
    [(456700, 5)], that is 456700 / 10^5. *)
Fixpoint read_decimal (l : list ascii) (int : Z) (frac : option Z) : option (Z * Z) :=
  match l with
  | [] => Some (int, default 0 frac)
  | c :: l' =>
      if (nat_of_ascii c =? 46)%nat then
        match frac with
        | None => read_decimal l' int (Some 0)
        | Some _ => None
        end
      else if is_digit c then
        read_decimal l' (10 * int + (Z.of_nat (nat_of_ascii c) - 48))
                     (Z.succ <$> frac)
      else None
  end.

End Utils.

(* ===================================================================== *)
(** ** The JavaScript fragment *)
(* ===================================================================== *)

Module Js.

Record Error := mkError { message : string }.

(** Values: numbers are the integral ones (and NaN); arrays and objects
    are the flat ones of the store's replies. *)
Inductive jsval :=
| VUndefined
| VNull
| VBool (b : bool)
| VNum (n : Z)
| VNaN
| VStr (s : string)
| VArr (items : list string)
| VObj (fields : list (string * string)).

(** [if (v)] *)
Definition truthy (v : jsval) : bool :=
  match v with
  | VUndefined | VNull | VNaN => false
  | VBool b => b
  | VNum n => negb (n =? 0)
  | VStr s => negb (String.eqb s EmptyString)
  | VArr _ | VObj _ => true
  end.

(** [if (n)] for an optional number. *)
Definition truthy_number (n : option Z) : bool :=
  match n with
  | Some k => negb (k =? 0)
  | None => false
  end.

(** What awaiting a promise gives; also the state of a promise, [Pending]
    being the state it starts in (and stays in if nobody settles it). *)
Inductive outcome (A : Type) :=
| Resolved (a : A)
| Rejected (e : Error)
| Pending.
Arguments Resolved {A} a.
Arguments Rejected {A} e.
Arguments Pending {A}.

(** [resolve(a)] and [reject(e)] of a promise executor: only the first
    call has an effect. *)
Definition resolve {A} (a : A) (p : outcome A) : outcome A :=
  match p with Pending => Resolved a | _ => p end.

Definition reject {A} (e : Error) (p : outcome A) : outcome A :=
  match p with Pending => Rejected e | _ => p end.

(** An asynchronous computation over a state [S]. *)
Definition aio (S A : Type) : Type := S → outcome A * S.

Definition ret {S A} (a : A) : aio S A := λ s, (Resolved a, s).

(** [const x = await m; k x] *)
Definition bind {S A B} (m : aio S A) (k : A → aio S B) : aio S B :=
  λ s, match m s with
       | (Resolved a, s') => k a s'
       | (Rejected e, s') => (Rejected e, s')
       | (Pending, s') => (Pending, s')
       end.

(** A synchronous call inside an async function: a throw rejects. *)
Definition of_result {S A} (r : Error + A) : aio S A :=
  λ s, match r with inr a => (Resolved a, s) | inl e => (Rejected e, s) end.

(** [try { m } catch (error) { handler error }] *)
Definition try_catch {S A} (m : aio S A) (handler : Error → aio S A) : aio S A :=
  λ s, match m s with
       | (Rejected e, s') => handler e s'
       | r => r
       end.

(** A state change that cannot fail. *)
Definition effect {S} (f : S → S) : aio S unit := λ s, (Resolved tt, f s).

End Js.

(** [const x = await m; k] *)
Notation "'await' x ':=' m 'in' k" := (Js.bind m (λ x, k))
  (at level 10, x name, m at level 100, k at level 200).

(* ===================================================================== *)
(** ** pool.ts *)
(* ===================================================================== *)

Module RedisPool.
Import Js Utils.

(** A [RedisClient], by identity. *)
Definition client : Type := nat.

(** The client call a [CommandRunner] makes: the method and its
    arguments (the callback is the executor's). *)
Inductive command :=
| Ping (message : option string)
| Set_ (key value : string) (ex : option Z)
| Get (key : string)
| Del (keys : list string)
| Hmset (key : string) (values : list string)
| Hgetall (key : string)
| Multi (commands : list (list string))
| Batch (commands : list (list string)).

Inductive level := LError | LWarn | LInfo | LVerbose | LDebug | LSilly.

(** What can be observed of a run, oldest first. *)
Inductive event :=
| Acquired (c : client)
| Released (c : client)
| Sent (c : client) (cmd : command)
| Settled (failure : option Error)
| Logged (l : level) (msg : string) (error : option Error).

(** What the underlying pool answers to an [acquire]. *)
Inductive grant :=
| Granted (c : client)
| Refused (e : Error)
| Starved.

(** A stored string with the seconds it has left to live, if it expires. *)
Abbreviation entry := (string * option Z)%type.

(** The environment: the [n]-th interaction with the outside (an acquire
    or a command) takes [elapsed n] nanoseconds; an acquire is answered by
    [grants]; a command fails on the way when [faults] says so and is
    otherwise served by the store; the store's answers to the hash and
    pipeline commands are [replies]. *)
Record env := {
  grants : nat → grant;
  faults : nat → command → option Error;
  elapsed : nat → Z;
  replies : command → jsval
}.

Record world := {
  store : gmap string entry;
  trace : list event;
  now : Z;
  steps : nat
}.

Record RedisConfig := {
  host : string;
  port : Z;
  db : Z
}.

Record HealthcheckResult := {
  available : bool;
  url : string;
  timeToAcquire : option string;
  duration : option string;
  warning : option string;
  info : option string
}.

Definition emit (ev : event) (w : world) : world :=
  {| store := store w; trace := trace w ++ [ev]; now := now w; steps := steps w |}.

Definition with_store (s : gmap string entry) (w : world) : world :=
  {| store := s; trace := trace w; now := now w; steps := steps w |}.

(** ** The store *)

Fixpoint del_keys (keys : list string) (s : gmap string entry) : Z * gmap string entry :=
  match keys with
  | [] => (0, s)
  | k :: keys' =>
      let '(n, s') := del_keys keys' (delete k s) in
      ((if s !! k is Some _ then 1 else 0) + n, s')
  end.

Definition serve (E : env) (cmd : command) (s : gmap string entry)
  : (Error + jsval) * gmap string entry :=
  match cmd with
  | Ping None => (inr (VStr "PONG"), s)
  | Ping (Some m) => (inr (VStr m), s)
  | Set_ k v None => (inr (VStr "OK"), <[k := (v, None)]> s)
  | Set_ k v (Some n) =>
      if 0 <? n then (inr (VStr "OK"), <[k := (v, Some n)]> s)
      else (inl (mkError "ERR invalid expire time in set"), s)
  | Get k =>
      match s !! k with
      | Some (v, _) => (inr (VStr v), s)
      | None => (inr VNull, s)
      end
  | Del keys =>
      let '(n, s') := del_keys keys s in (inr (VNum n), s')
  | _ => (inr (replies E cmd), s)
  end.

(** [secs] seconds pass: what had no more than that to live is gone. *)
Definition age (secs : Z) (e : entry) : option entry :=
  match e with
  | (v, None) => Some (v, None)
  | (v, Some n) => if secs <? n then Some (v, Some (n - secs)) else None
  end.

Definition elapse (secs : Z) (s : gmap string entry) : gmap string entry :=
  omap (age secs) s.

(** The commands a trace shows as sent, oldest first. *)
Definition sent_in (tr : list event) : list command :=
  omap (λ ev, match ev with Sent _ cmd => Some cmd | _ => None end) tr.

(** An environment in which every acquire is granted and no command
    fails on the way. *)
Definition healthy (E : env) : Prop :=
  ∀ n, (∃ c, grants E n = Granted c) ∧ ∀ cmd, faults E n cmd = None.

Section Pool.
Variable cfg : RedisConfig.
Variable E : env.

(** One interaction with the outside: the clock moves, the count too. *)
Definition tick (w : world) : world :=
  {| store := store w; trace := trace w;
     now := now w + elapsed E (steps w); steps := S (steps w) |}.

(** [process.hrtime()] and [process.hrtime(start)] *)
Definition hrtime_now (w : world) : hrtime :=
  (now w / 1000000000, now w mod 1000000000).

Definition hrtime_since (start : hrtime) (w : world) : hrtime :=
  let d := now w - (fst start * 1000000000 + snd start) in
  (d / 1000000000, d mod 1000000000).

Definition log (l : level) (msg : string) (error : option Error) (w : world) : world :=
  emit (Logged l msg error) w.

(** [this.pool.acquire(priority)]; the order among waiters is the
    underlying pool's and is part of [grants]. *)
Definition acquire (priority : option Z) : aio world client :=
  λ w, match grants E (steps w) with
       | Granted c => (Resolved c, emit (Acquired c) (tick w))
       | Refused e => (Rejected e, tick w)
       | Starved => (Pending, tick w)
       end.

Definition release (c : client) (w : world) : world :=
  emit (Released c) w.

(** The client performs [cmd] and calls back once with [(error, results)]. *)
Definition perform (c : client) (cmd : command) (w : world)
  : option Error * jsval * world :=
  let w1 := emit (Sent c cmd) w in
  match faults E (steps w1) cmd with
  | Some e => (Some e, VUndefined, tick w1)
  | None =>
      match serve E cmd (store w1) with
      | (inr v, s') => (None, v, with_store s' (tick w1))
      | (inl e, s') => (Some e, VUndefined, with_store s' (tick w1))
      end
  end.

(** [resolve] and [reject] of the promise [exec] returns, recording the
    call that settles it. *)
Definition settle (o : outcome jsval) (p : outcome jsval) (w : world)
  : outcome jsval * world :=
  match p, o with
  | Pending, Resolved v => (Resolved v, emit (Settled None) w)
  | Pending, Rejected e => (Rejected e, emit (Settled (Some e)) w)
  | _, _ => (p, w)
  end.

(** The callback [exec] hands to the runner. *)
Definition callback (c : client) (error : option Error) (results : jsval)
    (p : outcome jsval) (w : world) : outcome jsval * world :=
  let w1 := release c w in
  let '(p1, w2) :=
    match error with
    | Some e => settle (Rejected e) p w1
    | None => (p, w1)
    end in
  settle (Resolved results) p1 w2.

(** [exec]: the executor is an async function, so a failed acquire
    rejects the executor's own promise and leaves the returned one
    pending. *)
Definition exec (run : command) : aio world jsval :=
  λ w, match acquire None w with
       | (Resolved c, w1) =>
           let '(error, results, w2) := perform c run w1 in
           callback c error results Pending w2
       | (_, w1) => (Pending, w1)
       end.

Definition ping (message : option string) : aio world jsval :=
  exec (Ping (Some (match message with
                    | Some m => if String.eqb m EmptyString then "ping" else m
                    | None => "ping"
                    end))).

Definition set (key value : string) (expiration : option Z) : aio world jsval :=
  exec (if truthy_number expiration then Set_ key value expiration
        else Set_ key value None).

Definition get (key : string) : aio world jsval := exec (Get key).

Definition del (keys : list string) : aio world jsval := exec (Del keys).

Definition hmset (key : string) (values : list string) : aio world jsval :=
  exec (Hmset key values).

Definition hgetall (key : string) : aio world jsval := exec (Hgetall key).

Definition multi (commands : list (list string)) : aio world jsval :=
  exec (Multi commands).

Definition batch (commands : list (list string)) : aio world jsval :=
  exec (Batch commands).

Definition healthcheck : aio world HealthcheckResult :=
  λ w,
    let start := hrtime_now w in
    let url := "redis://" +:+ host cfg +:+ ":" +:+ show (port cfg)
                 +:+ "/" +:+ show (db cfg) in
    (await c := acquire None in
     λ w1,
       let timeToAcquire := hrtime_since start w1 in
       let '(error, _, w2) := perform c (Ping None) w1 in
       let duration := hrtime_since start w2 in
       let result :=
         {| url := url;
            available := if error is Some _ then false else true;
            timeToAcquire := Some (formatDuration timeToAcquire);
            duration := Some (formatDuration duration);
            warning :=
              if (0 <? fst duration)
                 || (50 * nanosecondsPerMillisecond <? snd duration)
              then Some "Connection slower than 50ms" else None;
            info := if error is Some e then Some (message e) else None |} in
       (Resolved result, release c w2)) w.

End Pool.

(** ** The connection factory: [create] *)

Inductive transport_event :=
| TError (e : Error)
| TReady.

(** The state the two handlers of [create] share: the [fulfilled] flag,
    the promise, and what was logged. *)
Record creation := {
  fulfilled : bool;
  promise : outcome client;
  logged : list event
}.

Definition on_error (e : Error) (st : creation) : creation :=
  let lg := logged st ++ [Logged LError "Redis client encountered an error" (Some e)] in
  if negb (fulfilled st) then
    {| fulfilled := true; promise := reject e (promise st); logged := lg |}
  else
    {| fulfilled := fulfilled st; promise := promise st; logged := lg |}.

Definition on_ready (c : client) (st : creation) : creation :=
  {| fulfilled := true;
     promise := resolve c (promise st);
     logged := logged st ++ [Logged LDebug "New redis client ready" None] |}.

Definition handle (c : client) (st : creation) (ev : transport_event) : creation :=
  match ev with
  | TError e => on_error e st
  | TReady => on_ready c st
  end.

(** [create()]: takes the next id, opens the transport [c], and lets the
    handlers see the events the transport emits, in order. *)
Definition create (nextId : Z) (c : client) (evs : list transport_event)
  : Z * Z * creation :=
  let clientId := nextId in
  let st0 := {| fulfilled := false; promise := Pending;
                logged := [Logged LDebug "Creating new redis client" None] |} in
  (clientId, nextId + 1, fold_left (handle c) evs st0).

(** The errors the transport emitted, and the errors a log shows at level
    error, both oldest first. *)
Definition errors_emitted (evs : list transport_event) : list Error :=
  omap (λ ev, match ev with TError e => Some e | TReady => None end) evs.

Definition errors_logged (l : list event) : list Error :=
  omap (λ ev, match ev with Logged LError _ (Some e) => Some e | _ => None end) l.

(** [validate(client)]: the probe the pool runs on an idle connection; it
    resolves with [! error]. *)
Definition validate (E : env) (c : client) : aio world bool :=
  λ w, let '(error, _, w1) := perform E c (Ping None) w in
       (Resolved (if error is Some _ then false else true), w1).

End RedisPool.

(* ===================================================================== *)
(** ** cache.ts *)
(* ===================================================================== *)

Module RedisCache.
Import Js RedisPool.

Section Cache.
Context {Params : Type}.

(** The caller's functions may throw; the passthrough may also return
    a promise, so what it gives is an [outcome]. *)
Record CacheOptions := {
  ttl : option Z;
  serializeKey : Params → Error + string;
  serializeValue : jsval → Error + string;
  deserializeValue : jsval → Error + jsval;
  passthrough : Params → outcome jsval
}.

(** The pool's world, the passthrough invocations so far (oldest
    first), and the write-backs that were started and not awaited. *)
Record state := {
  pool : world;
  calls : list Params;
  writes : list (string * string)
}.

Variable E : env.
Variable options : CacheOptions.

Definition on_pool {A} (m : aio world A) : aio state A :=
  λ st, let '(r, w) := m (pool st) in
        (r, {| pool := w; calls := calls st; writes := writes st |}).

Definition warn (error : Error) (st : state) : state :=
  {| pool := log LWarn "Error occured while updating a value in cache"
               (Some error) (pool st);
     calls := calls st; writes := writes st |}.

Definition invoke (params : Params) : aio state jsval :=
  λ st, (passthrough options params,
         {| pool := pool st; calls := calls st ++ [params];
            writes := writes st |}).

Definition get (key : string) : aio state jsval :=
  await result := on_pool (RedisPool.get E key) in
  if truthy result then of_result (deserializeValue options result)
  else ret VUndefined.

Definition set (key : string) (value : jsval) : aio state unit :=
  try_catch
    (await serialized := of_result (serializeValue options value) in
     await _ := on_pool (RedisPool.set E key serialized (ttl options)) in
     ret tt)
    (λ error, effect (warn error)).

Definition invalidate (params : Params) : aio state unit :=
  await key := of_result (serializeKey options params) in
  await _ := on_pool (RedisPool.del E [key]) in
  ret tt.

(** [this.set(key, value)] called and not awaited: [set] runs up to its
    first [await] (the value is serialized, or the failure to do so is
    caught and logged) and the rest of it is left to the event loop. *)
Definition set_detached (key : string) (value : jsval) (st : state) : state :=
  match serializeValue options value with
  | inr serialized =>
      {| pool := pool st; calls := calls st;
         writes := writes st ++ [(key, serialized)] |}
  | inl error => warn error st
  end.

(** The rest of a detached [set]: the awaited write, inside the [try]. *)
Definition resume (write : string * string) : aio state unit :=
  try_catch
    (await _ := on_pool (RedisPool.set E write.1 write.2 (ttl options)) in
     ret tt)
    (λ error, effect (warn error)).

(** The event loop gets to the detached writes, in the order they were
    started. *)
Definition flush (st : state) : state :=
  fold_left (λ st' write, (resume write st').2) (writes st)
            {| pool := pool st; calls := calls st; writes := [] |}.

Definition proxy (params : Params) : aio state jsval :=
  await key := of_result (serializeKey options params) in
  await fromCache := get key in
  if truthy fromCache then ret fromCache
  else
    await value := invoke params in
    λ st, (Resolved value, set_detached key value st).

(** What a cached read that reaches the store gives, from what the
    store holds under the key. *)
Definition cached (s : gmap string entry) (key : string) : outcome jsval :=
  match s !! key with
  | Some (v, _) =>
      if String.eqb v EmptyString then Resolved VUndefined
      else match deserializeValue options (VStr v) with
           | inr value => Resolved value
           | inl e => Rejected e
           end
  | None => Resolved VUndefined
  end.

End Cache.

Arguments CacheOptions : clear implicits.
Arguments state : clear implicits.

End RedisCache.

(* ===================================================================== *)
(** ** Sample environments and caches *)
(* ===================================================================== *)

Module Samples.
Import Js RedisPool RedisCache.

Definition localhost : RedisConfig :=
  {| host := "127.0.0.1"; port := 6379; db := 0 |}.

(** Every acquire is granted connection 7, nothing fails on the way, each
    interaction takes a millisecond. *)
Definition calm : env :=
  {| grants := λ _, Granted 7%nat;
     faults := λ _ _, None;
     elapsed := λ _, 1000000;
     replies := λ _, VNull |}.

Definition ECONNRESET : Error := mkError "read ECONNRESET".
Definition ETIMEDOUT : Error := mkError "ResourceRequest timed out".

(** Connections are granted, every command fails on the way. *)
Definition flaky : env :=
  {| grants := λ _, Granted 7%nat;
     faults := λ _ _, Some ECONNRESET;
     elapsed := λ _, 1000000;
     replies := λ _, VNull |}.

(** The endpoint is unreachable: no connection can be acquired. *)
Definition unreachable : env :=
  {| grants := λ _, Refused ETIMEDOUT;
     faults := λ _ _, None;
     elapsed := λ _, 3000000000;
     replies := λ _, VNull |}.

(** No connection ever becomes available, and no timeout is set. *)
Definition starved : env :=
  {| grants := λ _, Starved;
     faults := λ _ _, None;
     elapsed := λ _, 1000000;
     replies := λ _, VNull |}.

(** A healthy endpoint on which every interaction takes 30 milliseconds. *)
Definition sluggish : env :=
  {| grants := λ _, Granted 7%nat;
     faults := λ _ _, None;
     elapsed := λ _, 30000000;
     replies := λ _, VNull |}.

(** The pool grants the connection of the first command and refuses every
    acquire after it. *)
Definition drained : env :=
  {| grants := λ n, if (n <? 2)%nat then Granted 7%nat else Refused ETIMEDOUT;
     faults := λ _ _, None;
     elapsed := λ _, 1000000;
     replies := λ _, VNull |}.

(** Reads are served, every SET fails on the way. *)
Definition readonly : env :=
  {| grants := λ _, Granted 7%nat;
     faults := λ _ cmd, match cmd with
                        | Set_ _ _ _ => Some ECONNRESET
                        | _ => None
                        end;
     elapsed := λ _, 1000000;
     replies := λ _, VNull |}.

Definition fresh : world :=
  {| store := ∅; trace := []; now := 0; steps := 0 |}.

(** A cache of numbers keyed by user name: the number is stored in
    decimal, and the passthrough counts the letters of the name. *)
Definition parse_number (v : jsval) : Error + jsval :=
  match v with
  | VStr "0" => inr (VNum 0)
  | VStr "1" => inr (VNum 1)
  | VStr "2" => inr (VNum 2)
  | VStr "3" => inr (VNum 3)
  | VStr "4" => inr (VNum 4)
  | VStr "5" => inr (VNum 5)
  | _ => inl (mkError "Unexpected token")
  end.

Definition print_number (v : jsval) : Error + string :=
  match v with
  | VNum n => inr (Utils.show n)
  | _ => inl (mkError "not a number")
  end.

Definition letters : CacheOptions string :=
  {| ttl := Some 60;
     serializeKey := λ name, inr ("letters:" +:+ name);
     serializeValue := print_number;
     deserializeValue := parse_number;
     passthrough := λ name, Resolved (VNum (Z.of_nat (String.length name))) |}.

(** The same cache with a [ttl] of 0. *)
Definition letters_kept : CacheOptions string :=
  {| ttl := Some 0;
     serializeKey := serializeKey letters;
     serializeValue := serializeValue letters;
     deserializeValue := deserializeValue letters;
     passthrough := passthrough letters |}.

(** The same cache, refusing the empty name. *)
Definition letters_strict : CacheOptions string :=
  {| ttl := ttl letters;
     serializeKey := λ name, if String.eqb name EmptyString
                             then inl (mkError "empty name")
                             else serializeKey letters name;
     serializeValue := serializeValue letters;
     deserializeValue := deserializeValue letters;
     passthrough := passthrough letters |}.

(** The same cache over a source that is down. *)
Definition letters_down : CacheOptions string :=
  {| ttl := ttl letters;
     serializeKey := serializeKey letters;
     serializeValue := serializeValue letters;
     deserializeValue := deserializeValue letters;
     passthrough := λ _, Rejected (mkError "source down") |}.

Definition start : state string :=
  {| pool := fresh; calls := []; writes := [] |}.

(** The same cache over a store that already holds ["0"] for the empty
    name. *)
Definition start_zero : state string :=
  {| pool := with_store {[ "letters:" := ("0", None) ]} fresh;
     calls := []; writes := [] |}.

(** The same cache over a store that holds bob's number, with a minute
    left to live. *)
Definition start_cached : state string :=
  {| pool := with_store {[ "letters:bob" := ("3", Some 60) ]} fresh;
     calls := []; writes := [] |}.

(** The same cache over a store that holds something that is not a
    number for bob. *)
Definition start_corrupt : state string :=
  {| pool := with_store {[ "letters:bob" := ("three", None) ]} fresh;
     calls := []; writes := [] |}.

End Samples.

(* ===================================================================== *)
(** * Properties *)
(* ===================================================================== *)

(** ** [formatDuration] *)

Section FormatDuration.
Import Utils.

Lemma mod10_cases (x : Z) :
  x mod 10 = 0 ∨ x mod 10 = 1 ∨ x mod 10 = 2 ∨ x mod 10 = 3 ∨ x mod 10 = 4
  ∨ x mod 10 = 5 ∨ x mod 10 = 6 ∨ x mod 10 = 7 ∨ x mod 10 = 8 ∨ x mod 10 = 9.
Proof. pose proof (Z.mod_pos_bound x 10). lia. Qed.

Lemma digit_is_digit (x : Z) : is_digit (digit (x mod 10)) = true.
Proof.
  destruct (mod10_cases x) as [H|[H|[H|[H|[H|[H|[H|[H|[H|H]]]]]]]]];
    rewrite H; reflexivity.
Qed.

Lemma digit_nonzero (x : Z) :
  x mod 10 ≠ 0 → is_zero_or_dot (digit (x mod 10)) = false.
Proof.
  intros Hx.
  destruct (mod10_cases x) as [H|[H|[H|[H|[H|[H|[H|[H|[H|H]]]]]]]]];
    rewrite H in *; try reflexivity; congruence.
Qed.

Lemma count_digits_cons (c : ascii) (l : list ascii) :
  count_digits (c :: l)
  = ((if is_digit c then 1 else 0) + count_digits l)%nat.
Proof.
  unfold count_digits. rewrite filter_cons.
  destruct (is_digit c); simpl; reflexivity.
Qed.

Lemma count_digits_mantissa (n : Z) : count_digits (mantissa n) = 6%nat.
Proof.
  unfold mantissa. rewrite !count_digits_cons, !digit_is_digit. reflexivity.
Qed.

(** The leading digit of a six-digit number is not a zero. *)
Lemma leading_digit (n : Z) :
  100000 ≤ n < 1000000 → (n / 100000) mod 10 ≠ 0.
Proof.
  intros Hn.
  assert (1 ≤ n / 100000 < 10)
    by (split; [apply Z.div_le_lower_bound | apply Z.div_lt_upper_bound]; lia).
  rewrite Z.mod_small; lia.
Qed.

Lemma ndigits_aux_spec (fuel : nat) :
  ∀ n k, 1 ≤ k → 10 ^ (k - 1) ≤ n < 10 ^ k → (Z.to_nat k ≤ fuel)%nat →
         ndigits_aux fuel n = k.
Proof.
  induction fuel as [|fuel IH]; intros n k Hk Hn Hfuel; [lia|].
  simpl. destruct (Z.ltb_spec n 10) as [Hlt|Hge].
  - destruct (Z.eq_dec k 1) as [->|Hk1]; [reflexivity|].
    assert (10 ^ 1 ≤ 10 ^ (k - 1)) by (apply Z.pow_le_mono_r; lia).
    change (10 ^ 1) with 10 in *. lia.
  - assert (k ≠ 1) by (intros ->; change (10 ^ 1) with 10 in Hn; lia).
    rewrite (IH (n / 10) (k - 1)); try lia.
    replace (10 ^ k) with (10 * 10 ^ (k - 1)) in Hn
      by (rewrite <- Z.pow_succ_r by lia; f_equal; lia).
    replace (10 ^ (k - 1)) with (10 * 10 ^ (k - 1 - 1)) in Hn at 1
      by (rewrite <- Z.pow_succ_r by lia; f_equal; lia).
    split; [apply Z.div_le_lower_bound | apply Z.div_lt_upper_bound]; lia.
Qed.

Lemma ndigits_spec (n k : Z) :
  1 ≤ k → 10 ^ (k - 1) ≤ n < 10 ^ k → ndigits n = k.
Proof.
  intros Hk Hn. unfold ndigits. apply ndigits_aux_spec; try assumption.
  assert (0 < 10 ^ (k - 1)) by (apply Z.pow_pos_nonneg; lia).
  assert (k - 1 ≤ Z.log2 n).
  { apply Z.log2_le_pow2; [lia|].
    transitivity (10 ^ (k - 1)); [|lia].
    apply Z.pow_le_mono_l; lia. }
  lia.
Qed.

(** The double quotient: the scaling is by a non-negative power of two,
    the scaled quotient has 53 bits, and the rounding is off by half a
    unit at most. *)
Lemma quotient_spec (ns : Z) :
  0 < ns < 2 ^ 53 →
  ∃ m k, quotient ns = (m, k) ∧ 0 ≤ k
         ∧ 2 ^ 52 * 1000000 ≤ ns * 2 ^ k < 2 ^ 53 * 1000000
         ∧ 2 * Z.abs (m * 1000000 - ns * 2 ^ k) ≤ 1000000.
Proof.
  intros Hns. unfold quotient, nanosecondsPerMillisecond.
  pose proof (Z.log2_spec ns ltac:(lia)) as Hlog.
  assert (Hb : 0 ≤ Z.log2 ns < 53).
  { split; [apply Z.log2_nonneg|]. apply Z.log2_lt_pow2; lia. }
  set (b := Z.log2 ns) in *. set (k0 := 71 - b).
  assert (Hk0 : 2 ^ b * 2 ^ k0 = 2 ^ 71)
    by (unfold k0; rewrite <- Z.pow_add_r by lia; f_equal; lia).
  assert (Hpos : 0 < 2 ^ k0) by (apply Z.pow_pos_nonneg; lia).
  replace (2 ^ Z.succ b) with (2 * 2 ^ b) in Hlog by (rewrite Z.pow_succ_r; lia).
  assert (Hrange0 : 2 ^ 71 ≤ ns * 2 ^ k0 < 2 ^ 72).
  { change (2 ^ 72) with (2 * 2 ^ 71). rewrite <- Hk0. nia. }
  set (k := if 2 ^ 52 * 1000000 <=? ns * 2 ^ k0 then k0 else k0 + 1).
  assert (Hk : 0 ≤ k ∧ 2 ^ 52 * 1000000 ≤ ns * 2 ^ k < 2 ^ 53 * 1000000).
  { unfold k. destruct (Z.leb_spec (2 ^ 52 * 1000000) (ns * 2 ^ k0)) as [Hge|Hlt].
    - split; [unfold k0; lia|]. split; [exact Hge|].
      change (2 ^ 72) with 4722366482869645213696 in Hrange0.
      change (2 ^ 53 * 1000000) with 9007199254740992000000. lia.
    - split; [unfold k0; lia|].
      replace (2 ^ (k0 + 1)) with (2 * 2 ^ k0) by (rewrite Z.pow_add_r; unfold k0; lia).
      change (2 ^ 71) with 2361183241434822606848 in Hrange0.
      change (2 ^ 52 * 1000000) with 4503599627370496000000 in *.
      change (2 ^ 53 * 1000000) with 9007199254740992000000. lia. }
  destruct Hk as [Hk Hrange].
  set (num := ns * 2 ^ k) in *.
  pose proof (Z.div_mod num 1000000 ltac:(lia)) as Hdiv.
  pose proof (Z.mod_pos_bound num 1000000 ltac:(lia)) as Hmod.
  eexists. exists k. split; [reflexivity|]. split; [exact Hk|]. split; [exact Hrange|].
  destruct (Z.ltb_spec (2 * (num mod 1000000)) 1000000); [lia|].
  destruct (Z.ltb_spec 1000000 (2 * (num mod 1000000))); [lia|].
  destruct (Z.even (num / 1000000)); lia.
Qed.

(** What [scale] gives for a number of [d] digits: six digits [n] and an
    exponent [e] that is the first guess or one more; [n] is the number of
    nanoseconds itself, padded, when it has six digits at most, and is
    otherwise within half a unit of the sixth digit of it. *)
Lemma scale_spec (ns d : Z) :
  1 ≤ d ≤ 12 → 10 ^ (d - 1) ≤ ns < 10 ^ d →
  ∃ n e, scale ns = (n, e) ∧ 100000 ≤ n < 1000000
         ∧ d - 7 ≤ e ≤ d - 6
         ∧ (d ≤ 6 → e = d - 7 ∧ n = ns * 10 ^ (6 - d))
         ∧ (6 < d → 2 * Z.abs (n * 10 ^ (e + 1) - ns) ≤ 10 ^ (d - 6)).
Proof.
  intros Hd Hns.
  assert (Hd12 : 10 ^ d ≤ 10 ^ 12) by (apply Z.pow_le_mono_r; lia).
  assert (Hd0 : 0 < 10 ^ (d - 1)) by (apply Z.pow_pos_nonneg; lia).
  change (10 ^ 12) with 1000000000000 in Hd12.
  destruct (quotient_spec ns) as (m & k & Hq & Hk & Hrange & Hround).
  { change (2 ^ 53) with 9007199254740992. lia. }
  unfold scale. rewrite (ndigits_spec ns d ltac:(lia) Hns), Hq.
  rewrite (Z.max_r 0 (5 - (d - 7))) by lia.
  rewrite (Z.max_l 0 (d - 7 - 5)) by lia.
  change (10 ^ 0) with 1. rewrite Z.mul_1_r.
  replace (5 - (d - 7)) with (12 - d) by lia.
  set (K := 2 ^ k) in *.
  assert (HK : 1000000 < K).
  { change (2 ^ 52 * 1000000) with 4503599627370496000000 in Hrange. nia. }
  set (P := 10 ^ (12 - d)).
  assert (HP : 0 < P) by (apply Z.pow_pos_nonneg; lia).
  set (n0 := (2 * (m * P) + K) / (2 * K)).
  pose proof (Z.div_mod (2 * (m * P) + K) (2 * K) ltac:(lia)) as Hdiv.
  pose proof (Z.mod_pos_bound (2 * (m * P) + K) (2 * K) ltac:(lia)) as Hmod.
  fold n0 in Hdiv.
  assert (Hn0 : 2 * Z.abs (n0 * K - m * P) ≤ K) by lia.
  destruct (Z.leb_spec d 6) as [Hsmall|Hbig].
  - (* six digits at most: no rounding *)
    set (Q := 10 ^ (6 - d)).
    assert (HQ : 0 < Q) by (apply Z.pow_pos_nonneg; lia).
    assert (HPQ : P = 1000000 * Q)
      by (unfold P, Q; change 1000000 with (10 ^ 6);
          rewrite <- Z.pow_add_r by lia; f_equal; lia).
    assert (Hlo : 10 ^ (d - 1) * Q = 100000)
      by (unfold Q; rewrite <- Z.pow_add_r by lia;
          replace (d - 1 + (6 - d)) with 5 by lia; reflexivity).
    assert (Hhi : 10 ^ d * Q = 1000000)
      by (unfold Q; rewrite <- Z.pow_add_r by lia;
          replace (d + (6 - d)) with 6 by lia; reflexivity).
    assert (HnsQ : 100000 ≤ ns * Q < 1000000) by nia.
    assert (HQK : 1000000 * Q < K).
    { change (2 ^ 52 * 1000000) with 4503599627370496000000 in Hrange.
      assert (4503599627370496000000 * Q ≤ ns * Q * K) by nia.
      assert (ns * Q * K < 1000000 * K) by nia. nia. }
    assert (Hexact : n0 = ns * Q).
    { assert (Hoff : 2 * Z.abs (m * P - ns * Q * K) ≤ 1000000 * Q).
      { replace (m * P - ns * Q * K) with (Q * (m * 1000000 - ns * K))
          by (rewrite HPQ; ring).
        rewrite Z.abs_mul, (Z.abs_eq Q) by lia. nia. }
      assert (2 * Z.abs ((n0 - ns * Q) * K) < 2 * K).
      { replace ((n0 - ns * Q) * K) with ((n0 * K - m * P) + (m * P - ns * Q * K))
          by ring. lia. }
      rewrite Z.abs_mul, (Z.abs_eq K) in * by lia.
      assert (Z.abs (n0 - ns * Q) < 1) by nia. lia. }
    destruct (Z.eqb_spec n0 1000000) as [?|_]; [lia|].
    exists n0, (d - 7). split; [reflexivity|]. repeat split; lia.
  - (* more than six digits: rounding to the unit [u] of the sixth *)
    set (u := 10 ^ (d - 6)).
    assert (Hu : 0 < u) by (apply Z.pow_pos_nonneg; lia).
    assert (HPu : P * u = 1000000)
      by (unfold P, u; rewrite <- Z.pow_add_r by lia;
          replace (12 - d + (d - 6)) with 6 by lia; reflexivity).
    assert (Hlo : 10 ^ (d - 1) = 100000 * u)
      by (unfold u; change 100000 with (10 ^ 5);
          rewrite <- Z.pow_add_r by lia; f_equal; lia).
    assert (Hhi : 10 ^ d = 1000000 * u)
      by (unfold u; change 1000000 with (10 ^ 6);
          rewrite <- Z.pow_add_r by lia; f_equal; lia).
    assert (Hnear : 2 * Z.abs (n0 * u - ns) ≤ u).
    { assert (Hsum : 2 * Z.abs ((n0 * u - ns) * K) ≤ K * u + 1000000).
      { replace ((n0 * u - ns) * K)
          with (u * (n0 * K - m * P) + (m * 1000000 - ns * K))
          by (rewrite <- HPu; ring).
        assert (Z.abs (u * (n0 * K - m * P)) = u * Z.abs (n0 * K - m * P))
          by (rewrite Z.abs_mul, (Z.abs_eq u); lia).
        assert (2 * (u * Z.abs (n0 * K - m * P)) ≤ K * u) by nia.
        lia. }
      rewrite Z.abs_mul, (Z.abs_eq K) in Hsum by lia.
      assert (2 * Z.abs (n0 * u - ns) < u + 1) by nia. lia. }
    assert (Hn0r : 100000 ≤ n0 ≤ 1000000) by nia.
    destruct (Z.eqb_spec n0 1000000) as [Heq|Hne].
    + exists 100000, (d - 7 + 1). split; [reflexivity|].
      replace (d - 7 + 1) with (d - 6) by lia.
      split; [lia|]. split; [lia|]. split; [lia|]. intros _.
      replace (10 ^ (d - 6 + 1)) with (10 * u)
        by (unfold u; rewrite <- Z.pow_succ_r by lia; f_equal; lia).
      replace (100000 * (10 * u)) with (n0 * u) by lia. exact Hnear.
    + exists n0, (d - 7). split; [reflexivity|].
      split; [lia|]. split; [lia|]. split; [lia|]. intros _.
      replace (d - 7 + 1) with (d - 6) by lia. exact Hnear.
Qed.

Lemma strip_mantissa (n : Z) :
  100000 ≤ n < 1000000 → strip_leading (mantissa n) = mantissa n.
Proof.
  intros Hn. unfold mantissa. cbn [strip_leading].
  rewrite (digit_nonzero _ (leading_digit n Hn)). reflexivity.
Qed.

Lemma significant_padded (zs : list ascii) (n : Z) :
  Forall (λ c, is_zero_or_dot c = true) zs → 100000 ≤ n < 1000000 →
  significant (zs ++ mantissa n) = 6%nat.
Proof.
  intros Hzs Hn. unfold significant.
  assert (Hstrip : strip_leading (zs ++ mantissa n) = mantissa n).
  { induction Hzs as [|c zs Hc _ IH]; [apply strip_mantissa, Hn|].
    cbn [app strip_leading]. rewrite Hc. exact IH. }
  rewrite Hstrip. unfold mantissa at 1. apply count_digits_mantissa.
Qed.

Lemma significant_pointed (k : nat) (n : Z) :
  (1 ≤ k)%nat → 100000 ≤ n < 1000000 →
  significant (take k (mantissa n) ++ [ "."%char ] ++ drop k (mantissa n)) = 6%nat.
Proof.
  intros Hk Hn. unfold significant.
  pose proof (digit_nonzero _ (leading_digit n Hn)) as Hlead.
  destruct k as [|k]; [lia|].
  unfold mantissa at 1. cbn [take app strip_leading]. rewrite Hlead.
  unfold mantissa.
  do 6 (destruct k as [|k];
        [cbn [take drop app]; rewrite !count_digits_cons, !digit_is_digit;
         reflexivity|]).
  cbn [take drop app]. rewrite !count_digits_cons, !digit_is_digit. reflexivity.
Qed.

(** Under a second's worth of nanoseconds the rendering is never in
    exponential notation and has six significant digits. *)
Lemma toPrecision6_significant (ns : Z) :
  0 ≤ ns < 1000000000 → significant (toPrecision6 ns) = 6%nat.
Proof.
  intros Hns. unfold toPrecision6.
  destruct (Z.eqb_spec ns 0) as [->|Hnz]; [reflexivity|].
  destruct (Z.ltb_spec ns 0) as [?|_]; [lia|].
  rewrite Z.abs_eq by lia.
  assert (Hd : ∃ d, 1 ≤ d ≤ 9 ∧ 10 ^ (d - 1) ≤ ns < 10 ^ d).
  { destruct (Z_lt_le_dec ns 10); [exists 1; simpl; lia|].
    destruct (Z_lt_le_dec ns 100); [exists 2; simpl; lia|].
    destruct (Z_lt_le_dec ns 1000); [exists 3; simpl; lia|].
    destruct (Z_lt_le_dec ns 10000); [exists 4; simpl; lia|].
    destruct (Z_lt_le_dec ns 100000); [exists 5; simpl; lia|].
    destruct (Z_lt_le_dec ns 1000000); [exists 6; simpl; lia|].
    destruct (Z_lt_le_dec ns 10000000); [exists 7; simpl; lia|].
    destruct (Z_lt_le_dec ns 100000000); [exists 8; simpl; lia|].
    exists 9; simpl; lia. }
  destruct Hd as (d & Hd & Hrange).
  destruct (scale_spec ns d ltac:(lia) Hrange)
    as (n & e & -> & Hn & He & Hsmall & _).
  assert (He' : e = -6 ∨ e = -5 ∨ e = -4 ∨ e = -3 ∨ e = -2 ∨ e = -1
                ∨ e = 0 ∨ e = 1 ∨ e = 2 ∨ e = 3) by lia.
  destruct He' as [->|[->|[->|[->|[->|[->|[->|[->|[->| ->]]]]]]]]];
    cbn [Z.ltb Z.leb Z.eqb Z.compare orb Pos.compare Pos.compare_cont Pos.eqb];
    cbn [app];
    first
      [ apply (significant_padded (_ :: _ :: replicate _ _) n);
        [repeat constructor | exact Hn]
      | apply significant_pointed; [cbn; lia | exact Hn] ].
Qed.

(** Reading back, one character at a time. *)
Lemma read_digit_int (x int : Z) (l : list ascii) :
  read_decimal (digit (x mod 10) :: l) int None
  = read_decimal l (10 * int + x mod 10) None.
Proof.
  destruct (mod10_cases x) as [H|[H|[H|[H|[H|[H|[H|[H|[H|H]]]]]]]]];
    rewrite H; reflexivity.
Qed.

Lemma read_digit_frac (x int f : Z) (l : list ascii) :
  read_decimal (digit (x mod 10) :: l) int (Some f)
  = read_decimal l (10 * int + x mod 10) (Some (f + 1)).
Proof.
  destruct (mod10_cases x) as [H|[H|[H|[H|[H|[H|[H|[H|[H|H]]]]]]]]];
    rewrite H; reflexivity.
Qed.

Lemma read_zero_int (int : Z) (l : list ascii) :
  read_decimal ("0"%char :: l) int None = read_decimal l (10 * int + 0) None.
Proof. reflexivity. Qed.

Lemma read_zero_frac (int f : Z) (l : list ascii) :
  read_decimal ("0"%char :: l) int (Some f)
  = read_decimal l (10 * int + 0) (Some (f + 1)).
Proof. reflexivity. Qed.

Lemma read_point (int : Z) (l : list ascii) :
  read_decimal ("."%char :: l) int None = read_decimal l int (Some 0).
Proof. reflexivity. Qed.

Lemma read_end (int f : Z) : read_decimal [] int (Some f) = Some (int, f).
Proof. reflexivity. Qed.

Ltac read_through :=
  repeat first
    [ rewrite read_digit_int | rewrite read_digit_frac | rewrite read_zero_int
    | rewrite read_zero_frac | rewrite read_point | rewrite read_end ].

Ltac known_tests :=
  repeat match goal with
         | |- context [if ?c then _ else _] =>
             let v := eval vm_compute in c in change c with v; cbv iota
         end.

Ltac known_counts :=
  repeat match goal with
         | |- context [Z.to_nat ?z] =>
             let v := eval vm_compute in (Z.to_nat z) in
             change (Z.to_nat z) with v
         end.

Ltac known_powers :=
  repeat match goal with
         | |- context [10 ^ ?k] =>
             let v := eval vm_compute in (10 ^ k) in change (10 ^ k) with v
         | H : context [10 ^ ?k] |- _ =>
             let v := eval vm_compute in (10 ^ k) in change (10 ^ k) with v in H
         end.

(** The six digits of a number below 10^6 spell that number. *)
Lemma digits_spell (n : Z) :
  0 ≤ n < 1000000 →
  10 * (10 * (10 * (10 * (10 * (10 * 0 + n / 100000 mod 10)
                          + n / 10000 mod 10) + n / 1000 mod 10)
              + n / 100 mod 10) + n / 10 mod 10) + n mod 10 = n.
Proof.
  intros Hn.
  assert (Hstep : ∀ a, n / a / 10 = n / (a * 10) →
                       n / a = 10 * (n / (a * 10)) + (n / a) mod 10)
    by (intros a <-; apply Z.div_mod; lia).
  pose proof (Z.div_mod n 10 ltac:(lia)) as H0.
  pose proof (Hstep 10 (Z.div_div n 10 10 ltac:(lia) ltac:(lia))) as H1.
  pose proof (Hstep 100 (Z.div_div n 100 10 ltac:(lia) ltac:(lia))) as H2.
  pose proof (Hstep 1000 (Z.div_div n 1000 10 ltac:(lia) ltac:(lia))) as H3.
  pose proof (Hstep 10000 (Z.div_div n 10000 10 ltac:(lia) ltac:(lia))) as H4.
  change (10 * 10) with 100 in *. change (100 * 10) with 1000 in *.
  change (1000 * 10) with 10000 in *. change (10000 * 10) with 100000 in *.
  assert (0 ≤ n / 100000 < 10)
    by (split; [apply Z.div_pos | apply Z.div_lt_upper_bound]; lia).
  rewrite (Z.mod_small (n / 100000) 10) by lia.
  lia.
Qed.

(** Under a second's worth of nanoseconds, what is rendered reads back as
    a number within half a unit of its last digit of the number of
    nanoseconds divided by 10^6. *)
Lemma toPrecision6_reads (ns : Z) :
  0 ≤ ns < 1000000000 →
  ∃ D f, read_decimal (toPrecision6 ns) 0 None = Some (D, f)
         ∧ 0 ≤ f
         ∧ 2 * Z.abs (D * 1000000 - ns * 10 ^ f) ≤ 1000000.
Proof.
  intros Hns. unfold toPrecision6.
  destruct (Z.eqb_spec ns 0) as [->|Hnz].
  { exists 0, 5. split; [reflexivity|]. split; lia. }
  destruct (Z.ltb_spec ns 0) as [?|_]; [lia|].
  rewrite Z.abs_eq by lia.
  assert (Hd : ∃ d, 1 ≤ d ≤ 9 ∧ 10 ^ (d - 1) ≤ ns < 10 ^ d).
  { destruct (Z_lt_le_dec ns 10); [exists 1; simpl; lia|].
    destruct (Z_lt_le_dec ns 100); [exists 2; simpl; lia|].
    destruct (Z_lt_le_dec ns 1000); [exists 3; simpl; lia|].
    destruct (Z_lt_le_dec ns 10000); [exists 4; simpl; lia|].
    destruct (Z_lt_le_dec ns 100000); [exists 5; simpl; lia|].
    destruct (Z_lt_le_dec ns 1000000); [exists 6; simpl; lia|].
    destruct (Z_lt_le_dec ns 10000000); [exists 7; simpl; lia|].
    destruct (Z_lt_le_dec ns 100000000); [exists 8; simpl; lia|].
    exists 9; simpl; lia. }
  destruct Hd as (d & Hd & Hrange).
  destruct (scale_spec ns d ltac:(lia) Hrange)
    as (n & e & -> & Hn & He & Hsmall & Hbig).
  pose proof (digits_spell n ltac:(lia)) as Hread.
  assert (Hdigits : d = 1 ∨ d = 2 ∨ d = 3 ∨ d = 4 ∨ d = 5 ∨ d = 6
                    ∨ d = 7 ∨ d = 8 ∨ d = 9) by (clear - Hd; lia).
  assert (Hexp : e = d - 7 ∨ e = d - 6) by (clear - He; lia).
  assert (Hfirst : d ≤ 6 → e = d - 7) by (intros H; apply Hsmall, H).
  destruct Hdigits as [->|[->|[->|[->|[->|[->|[->|[->| ->]]]]]]]];
    (match type of Hexp with
     | e = ?a ∨ e = ?b =>
         let va := eval vm_compute in a in
         let vb := eval vm_compute in b in
         change a with va in Hexp; change b with vb in Hexp
     end);
    (destruct Hexp as [-> | ->]; [|try (exfalso; clear - Hfirst; lia)]);
    known_tests; known_counts;
    unfold mantissa; cbn [take drop app replicate];
    read_through; eexists; eexists; (split; [reflexivity|]); (split; [lia|]);
    cbn [Z.add Pos.add Pos.succ]; known_powers;
    try (destruct (Hsmall ltac:(lia)) as [_ Hexact]);
    try (specialize (Hbig ltac:(lia)));
    clear Hsmall Hfirst Hrange; lia.
Qed.

End FormatDuration.

(** C8.  A duration of [h] hours, [m] minutes, [s] seconds and under a
    second's worth of nanoseconds is rendered as the milliseconds alone
    when it is under a second, preceded by the seconds when under a
    minute, by the minutes and seconds when under an hour, and by the
    hours, minutes and seconds otherwise; the milliseconds always carry
    six significant digits, and the number they spell is within half a
    unit of its last digit of the nanoseconds divided by 10^6; the four
    sample durations render as documented. *)
Theorem formatDuration_renders (wholeSeconds nanoseconds h m s : Z) :
  0 ≤ nanoseconds < 1000000000 →
  0 ≤ h → 0 ≤ m < 60 → 0 ≤ s < 60 →
  wholeSeconds = 3600 * h + 60 * m + s →
  let ms := Utils.string_of_list (Utils.toPrecision6 nanoseconds) +:+ "ms" in
  Utils.significant (Utils.toPrecision6 nanoseconds) = 6%nat
  ∧ (∃ D f,
        Utils.read_decimal (Utils.toPrecision6 nanoseconds) 0 None = Some (D, f)
        ∧ 0 ≤ f
        ∧ 2 * Z.abs (D * 1000000 - nanoseconds * 10 ^ f) ≤ 1000000)
  ∧ Utils.formatDuration (wholeSeconds, nanoseconds)
    = (if wholeSeconds <? 1 then ms
       else if wholeSeconds <? 60 then
         Utils.show s +:+ "sec " +:+ ms
       else if wholeSeconds <? 3600 then
         Utils.show m +:+ "min " +:+ Utils.show s +:+ "sec " +:+ ms
       else
         Utils.show h +:+ "hr " +:+ Utils.show m +:+ "min "
           +:+ Utils.show s +:+ "sec " +:+ ms)
  ∧ Utils.formatDuration (0, 4567000) = "4.56700ms"
  ∧ Utils.formatDuration (3, 4567000) = "3sec 4.56700ms"
  ∧ Utils.formatDuration (125, 0) = "2min 5sec 0.00000ms"
  ∧ Utils.formatDuration (3725, 0) = "1hr 2min 5sec 0.00000ms".
Proof.
  intros Hns Hh Hm Hs Hws ms.
  split; [apply toPrecision6_significant, Hns|].
  split; [apply toPrecision6_reads, Hns|].
  split; [|repeat split; vm_compute; reflexivity].
  unfold Utils.formatDuration, Utils.oneMinute, Utils.oneHour. fold ms.
  change (60 * 60) with 3600.
  destruct (Z.ltb_spec wholeSeconds 1) as [?|H1]; [reflexivity|].
  destruct (Z.ltb_spec wholeSeconds 60) as [H60|H60].
  - replace s with wholeSeconds by lia. reflexivity.
  - rewrite !Z.rem_mod_nonneg by (try apply Z.mod_pos_bound; lia).
    assert (Hsec : wholeSeconds mod 60 = s).
    { subst wholeSeconds.
      replace (3600 * h + 60 * m + s) with (s + (60 * h + m) * 60) by lia.
      rewrite Z.mod_add by lia. apply Z.mod_small; lia. }
    destruct (Z.ltb_spec wholeSeconds 3600) as [H3600|H3600].
    + assert (h = 0) by lia. subst h.
      assert (Hmin : wholeSeconds / 60 = m).
      { subst wholeSeconds. symmetry. apply (Z.div_unique _ _ _ s); lia. }
      rewrite Hmin, Hsec. reflexivity.
    + assert (Hhr : wholeSeconds / 3600 = h).
      { subst wholeSeconds. symmetry. apply (Z.div_unique _ _ _ (60 * m + s)); lia. }
      assert (Hrem : wholeSeconds mod 3600 = 60 * m + s).
      { subst wholeSeconds. symmetry.
        apply (Z.mod_unique _ _ h); lia. }
      rewrite Hhr, Hrem.
      replace ((60 * m + s) / 60) with m
        by (apply (Z.div_unique _ _ _ s); lia).
      replace ((60 * m + s) mod 60) with s
        by (apply (Z.mod_unique _ _ m); lia).
      reflexivity.
Qed.

Lemma formatDuration_renders_witness :
  0 ≤ 123456789 < 1000000000
  ∧ Utils.significant (Utils.toPrecision6 123456789) = 6%nat
  ∧ (∃ D f,
        Utils.read_decimal (Utils.toPrecision6 123456789) 0 None = Some (D, f)
        ∧ 0 ≤ f
        ∧ 2 * Z.abs (D * 1000000 - 123456789 * 10 ^ f) ≤ 1000000)
  ∧ Utils.formatDuration (7384, 123456789) = "2hr 3min 4sec 123.457ms".
Proof.
  split; [lia|].
  destruct (formatDuration_renders 7384 123456789 2 3 4) as (Hsig & Hval & Hfmt & _);
    [lia | lia | lia | lia | reflexivity |].
  split; [exact Hsig|]. split; [exact Hval|]. rewrite Hfmt. reflexivity.
Defined.

(** Where the seventh digit is an exact 5, the digit printed follows the
    double the division gives and not the exact quotient: 1234565 / 10^6
    is the double just below 1.234565 and 1.23456 is printed, while
    1000005 / 10^6 is the double just above 1.000005 and 1.00001 is
    printed. *)
Example formatDuration_follows_the_double :
  Utils.formatDuration (0, 1234565) = "1.23456ms"
  ∧ Utils.formatDuration (0, 1000005) = "1.00001ms".
Proof. repeat split; vm_compute; reflexivity. Qed.

(** ** The command executor *)

Section Executor.
Import Js RedisPool.
Variable E : env.

Lemma exec_granted (run : command) (w : world) (c : client) :
  grants E (steps w) = Granted c →
  exec E run w
  = let '(error, results, w2) := perform E c run (emit (Acquired c) (tick E w)) in
    callback c error results Pending w2.
Proof. intros Hc. unfold exec, acquire. rewrite Hc. reflexivity. Qed.

Lemma exec_not_granted (run : command) (w : world) :
  (∀ c, grants E (steps w) ≠ Granted c) → exec E run w = (Pending, tick E w).
Proof.
  intros Hc. unfold exec, acquire.
  destruct (grants E (steps w)) as [c| |]; [destruct (Hc c); reflexivity| |];
    reflexivity.
Qed.

Lemma perform_trace (c : client) (cmd : command) (w : world) :
  trace (perform E c cmd w).2 = trace w ++ [Sent c cmd].
Proof.
  unfold perform. cbn [steps store emit].
  destruct (faults E (steps w) cmd); [reflexivity|].
  destruct (serve E cmd (store w)) as [[e|v] s']; reflexivity.
Qed.

Lemma callback_spec (c : client) (error : option Error) (results : jsval) (w : world) :
  callback c error results Pending w
  = (match error with Some e => Rejected e | None => Resolved results end,
     emit (Settled error) (emit (Released c) w)).
Proof. destruct error; reflexivity. Qed.

(** Each store operation of the pool is one run of the executor. *)
Lemma operations_are_exec (key value : string) (keys values : list string)
    (commands : list (list string)) :
  (∃ m, ping E None = exec E (Ping (Some m)))
  ∧ (∃ ex, set E key value None = exec E (Set_ key value ex))
  ∧ get E key = exec E (Get key)
  ∧ del E keys = exec E (Del keys)
  ∧ hmset E key values = exec E (Hmset key values)
  ∧ hgetall E key = exec E (Hgetall key)
  ∧ multi E commands = exec E (Multi commands)
  ∧ batch E commands = exec E (Batch commands).
Proof.
  split; [eexists; reflexivity|]. split; [eexists; reflexivity|].
  repeat split; reflexivity.
Qed.

End Executor.

(** C3.  Whatever command the executor runs on a granted connection, and
    whether the client calls back with an error or with results, the
    events of the run are: that one connection acquired, the command sent
    on it, the connection released, and only then the promise settled,
    rejected with the error or resolved with the results. *)
Theorem exec_releases_once (E : RedisPool.env) (run : RedisPool.command)
    (w : RedisPool.world) (c : RedisPool.client) :
  RedisPool.grants E (RedisPool.steps w) = RedisPool.Granted c →
  ∃ (error : option Js.Error) (results : Js.jsval) (w' : RedisPool.world),
    RedisPool.exec E run w
    = (match error with
       | Some e => Js.Rejected e
       | None => Js.Resolved results
       end, w')
    ∧ RedisPool.trace w'
      = RedisPool.trace w
        ++ [ RedisPool.Acquired c; RedisPool.Sent c run;
             RedisPool.Released c; RedisPool.Settled error ].
Proof.
  intros Hc. rewrite (exec_granted E run w c Hc).
  pose proof (perform_trace E c run
                (RedisPool.emit (RedisPool.Acquired c) (RedisPool.tick E w))) as Htr.
  destruct (RedisPool.perform E c run _) as [[error results] w2].
  rewrite callback_spec. exists error, results. eexists. split; [reflexivity|].
  cbn [RedisPool.trace RedisPool.emit snd] in *. rewrite Htr.
  rewrite <- !app_assoc. reflexivity.
Qed.

Lemma exec_releases_once_witness :
  ∃ w',
    RedisPool.exec Samples.flaky (RedisPool.Set_ "k" "v" (Some 5)) Samples.fresh
    = (Js.Rejected Samples.ECONNRESET, w')
    ∧ RedisPool.trace w'
      = [ RedisPool.Acquired 7%nat;
          RedisPool.Sent 7%nat (RedisPool.Set_ "k" "v" (Some 5));
          RedisPool.Released 7%nat;
          RedisPool.Settled (Some Samples.ECONNRESET) ].
Proof.
  destruct (exec_releases_once Samples.flaky (RedisPool.Set_ "k" "v" (Some 5))
              Samples.fresh 7%nat eq_refl) as (error & results & w' & Hexec & Htr).
  exists w'. rewrite Htr.
  assert (Herr : error = Some Samples.ECONNRESET).
  { vm_compute in Hexec. destruct error as [e|]; [|discriminate].
    injection Hexec as He _. rewrite <- He. reflexivity. }
  rewrite Hexec, Herr. split; reflexivity.
Defined.

(** ** The healthcheck *)

Section Healthcheck.
Import Js RedisPool.
Variable cfg : RedisConfig.
Variable E : env.

(** On a granted connection the healthcheck always resolves: a failed
    ping is reported in the result, and the connection is released. *)
Lemma healthcheck_granted (w : world) (c : client) :
  grants E (steps w) = Granted c →
  ∃ result w2,
    let '(error, _, w1) :=
      perform E c (Ping None) (emit (Acquired c) (tick E w)) in
    healthcheck cfg E w = (Resolved result, w2)
    ∧ w2 = release c w1
    ∧ available result = (if error is Some _ then false else true)
    ∧ info result = (if error is Some e then Some (message e) else None).
Proof.
  intros Hc. unfold healthcheck, bind, acquire. rewrite Hc.
  destruct (perform E c (Ping None) _) as [[error results] w1].
  eexists. eexists. repeat split; reflexivity.
Qed.

(** A refused acquire is not caught: the healthcheck rejects. *)
Lemma healthcheck_refused (w : world) (e : Error) :
  grants E (steps w) = Refused e →
  healthcheck cfg E w = (Rejected e, tick E w).
Proof. intros Hc. unfold healthcheck, bind, acquire. rewrite Hc. reflexivity. Qed.

End Healthcheck.

(** C2.  On an endpoint where no connection can be acquired the
    healthcheck does not return a result with [available] false: it
    rejects with the error of the acquire. *)
Theorem healthcheck_unreachable_rejects :
  RedisPool.healthcheck Samples.localhost Samples.unreachable Samples.fresh
  = (Js.Rejected Samples.ETIMEDOUT,
     RedisPool.tick Samples.unreachable Samples.fresh).
Proof. apply healthcheck_refused. reflexivity. Qed.

(** ** The connection factory *)

Section Factory.
Import Js RedisPool.

Lemma handle_settled (c : client) (st : creation) (ev : transport_event) :
  fulfilled st = true → promise st ≠ Pending →
  fulfilled (handle c st ev) = true ∧ promise (handle c st ev) = promise st.
Proof.
  intros Hf Hp. destruct ev as [e|]; unfold handle, on_error, on_ready.
  - rewrite Hf. cbn. split; reflexivity.
  - cbn. split; [reflexivity|]. destruct (promise st); [reflexivity..|congruence].
Qed.

Lemma handlers_settled (c : client) (evs : list transport_event) :
  ∀ st, fulfilled st = true → promise st ≠ Pending →
        promise (fold_left (handle c) evs st) = promise st.
Proof.
  induction evs as [|ev evs IH]; intros st Hf Hp; [reflexivity|].
  cbn [fold_left].
  destruct (handle_settled c st ev Hf Hp) as [Hf' Hp'].
  rewrite IH; [exact Hp' | exact Hf' | rewrite Hp'; exact Hp].
Qed.

End Factory.

(** C7.  The promise [create] returns is pending as long as the transport
    has emitted nothing; it is rejected with the transport's error when
    the first event is an error and resolved with the connection when the
    first event is ready, whatever events follow: nothing that is emitted
    after the first event changes it. *)
Theorem create_first_event_wins (nextId : Z) (c : RedisPool.client) :
  RedisPool.promise (RedisPool.create nextId c []).2 = Js.Pending
  ∧ (∀ e rest,
        RedisPool.promise (RedisPool.create nextId c (RedisPool.TError e :: rest)).2
        = Js.Rejected e)
  ∧ (∀ rest,
        RedisPool.promise (RedisPool.create nextId c (RedisPool.TReady :: rest)).2
        = Js.Resolved c).
Proof.
  split; [reflexivity|]. split.
  - intros e rest. unfold RedisPool.create. cbn [snd fold_left].
    rewrite handlers_settled; [reflexivity | reflexivity | discriminate].
  - intros rest. unfold RedisPool.create. cbn [snd fold_left].
    rewrite handlers_settled; [reflexivity | reflexivity | discriminate].
Qed.

(** ** Commands in a healthy environment *)

Section Healthy.
Import Js RedisPool.
Variable E : env.
Hypothesis Hhealthy : healthy E.

(** The command is served by the store and its answer comes back. *)
Lemma exec_healthy (cmd : command) (w : world) :
  ∃ w',
    exec E cmd w
    = (match (serve E cmd (store w)).1 with
       | inr v => Resolved v
       | inl e => Rejected e
       end, w')
    ∧ store w' = (serve E cmd (store w)).2
    ∧ sent_in (trace w') = sent_in (trace w) ++ [cmd].
Proof.
  destruct (Hhealthy (steps w)) as [[c Hc] _].
  rewrite (exec_granted E cmd w c Hc).
  unfold perform. cbn [steps store emit tick].
  destruct (Hhealthy (S (steps w))) as [_ Hfault]. rewrite Hfault.
  destruct (serve E cmd (store w)) as [[e|v] s'];
    rewrite callback_spec; eexists; (split; [reflexivity|]);
    cbn [store trace emit with_store tick snd];
    (split; [reflexivity|]);
    unfold sent_in; rewrite <- !app_assoc, omap_app; reflexivity.
Qed.

Lemma get_healthy (key : string) (w : world) :
  ∃ w',
    get E key w
    = (match store w !! key with
       | Some (v, _) => Resolved (VStr v)
       | None => Resolved VNull
       end, w')
    ∧ store w' = store w.
Proof.
  destruct (exec_healthy (Get key) w) as (w' & Hexec & Hstore & _).
  exists w'. unfold get. rewrite Hexec, Hstore. cbn [serve].
  destruct (store w !! key) as [[v t]|]; split; reflexivity.
Qed.

Lemma del_healthy (key : string) (w : world) :
  ∃ w' n,
    del E [key] w = (Resolved (VNum n), w')
    ∧ store w' = delete key (store w).
Proof.
  destruct (exec_healthy (Del [key]) w) as (w' & Hexec & Hstore & _).
  exists w'. unfold del. rewrite Hexec, Hstore. cbn [serve del_keys].
  eexists. split; reflexivity.
Qed.

(** A write with an acceptable time to live is stored, with that time to
    live when it is a positive number and without one otherwise. *)
Lemma set_healthy (key value : string) (expiration : option Z) (w : world) :
  (∀ n, expiration = Some n → 0 ≤ n) →
  ∃ w',
    set E key value expiration w = (Resolved (VStr "OK"), w')
    ∧ store w'
      = <[key := (value, if truthy_number expiration then expiration else None)]>
          (store w).
Proof.
  intros Hex. unfold set.
  destruct (exec_healthy
              (if truthy_number expiration then Set_ key value expiration
               else Set_ key value None) w) as (w' & Hexec & Hstore & _).
  exists w'. rewrite Hexec, Hstore.
  destruct expiration as [n|]; cbn [truthy_number]; [|split; reflexivity].
  destruct (Z.eqb_spec n 0) as [->|Hn]; cbn [negb serve]; [split; reflexivity|].
  specialize (Hex n eq_refl).
  destruct (Z.ltb_spec 0 n); [split; reflexivity | lia].
Qed.

End Healthy.

(** ** The cache-aside proxy *)

Section Proxy.
Import Js RedisPool RedisCache.
Context {Params : Type}.
Variable E : env.
Variable options : CacheOptions Params.

Lemma on_pool_frame {A} (m : aio world A) (st : state Params) :
  calls (on_pool m st).2 = calls st ∧ writes (on_pool m st).2 = writes st.
Proof. unfold on_pool. destruct (m (pool st)); split; reflexivity. Qed.

(** The cached read touches neither the passthrough nor the writes. *)
Lemma get_frame (key : string) (st : state Params) :
  calls (RedisCache.get E options key st).2 = calls st
  ∧ writes (RedisCache.get E options key st).2 = writes st.
Proof.
  unfold RedisCache.get, bind.
  pose proof (on_pool_frame (RedisPool.get E key) st) as Hframe.
  destruct (on_pool (RedisPool.get E key) st) as [[result| |] st1];
    cbn [snd] in *; try exact Hframe.
  destruct (truthy result); [|exact Hframe].
  unfold of_result. destruct (deserializeValue options result); exact Hframe.
Qed.

(** [proxy], once the key is known, by cases on the cached read. *)
Lemma proxy_unfold (params : Params) (key : string) (st : state Params) :
  serializeKey options params = inr key →
  proxy E options params st
  = match RedisCache.get E options key st with
    | (Resolved fromCache, st1) =>
        if truthy fromCache then (Resolved fromCache, st1)
        else
          match passthrough options params with
          | Resolved value =>
              (Resolved value,
               set_detached options key value (invoke options params st1).2)
          | Rejected e => (Rejected e, (invoke options params st1).2)
          | Pending => (Pending, (invoke options params st1).2)
          end
    | (Rejected e, st1) => (Rejected e, st1)
    | (Pending, st1) => (Pending, st1)
    end.
Proof.
  intros Hkey. unfold proxy, bind at 1, of_result at 1. rewrite Hkey.
  unfold bind at 1.
  destruct (RedisCache.get E options key st) as [[fromCache| |] st1];
    try reflexivity.
  destruct (truthy fromCache); [reflexivity|].
  unfold bind, invoke. cbn [snd].
  destruct (passthrough options params); reflexivity.
Qed.

(** On a miss the proxy gives what the passthrough gives, having invoked
    it once. *)
Lemma proxy_miss (params : Params) (key : string) (st st1 : state Params)
    (fromCache : jsval) :
  serializeKey options params = inr key →
  RedisCache.get E options key st = (Resolved fromCache, st1) →
  truthy fromCache = false →
  (proxy E options params st).1 = passthrough options params
  ∧ calls (proxy E options params st).2 = calls st ++ [params].
Proof.
  intros Hkey Hget Hfalsy. rewrite (proxy_unfold params key st Hkey), Hget, Hfalsy.
  pose proof (get_frame key st) as [Hcalls _]. rewrite Hget in Hcalls.
  cbn [snd] in Hcalls.
  destruct (passthrough options params) as [value| |]; cbn [fst snd invoke];
    (split; [reflexivity|]); try (cbn [calls]; rewrite Hcalls; reflexivity).
  unfold set_detached. destruct (serializeValue options value);
    cbn [calls warn]; rewrite Hcalls; reflexivity.
Qed.

(** On a hit the proxy gives the cached value and leaves the passthrough
    alone. *)
Lemma proxy_hit (params : Params) (key : string) (st st1 : state Params)
    (fromCache : jsval) :
  serializeKey options params = inr key →
  RedisCache.get E options key st = (Resolved fromCache, st1) →
  truthy fromCache = true →
  proxy E options params st = (Resolved fromCache, st1)
  ∧ calls st1 = calls st.
Proof.
  intros Hkey Hget Htruthy. rewrite (proxy_unfold params key st Hkey), Hget, Htruthy.
  pose proof (get_frame key st) as [Hcalls _]. rewrite Hget in Hcalls.
  split; [reflexivity | exact Hcalls].
Qed.

(** The rest of a detached write never rejects. *)
Lemma resume_spec (write : string * string) (st : state Params) :
  resume E options write st
  = match RedisPool.set E write.1 write.2 (ttl options) (pool st) with
    | (Resolved _, w) =>
        (Resolved tt, {| pool := w; calls := calls st; writes := writes st |})
    | (Rejected error, w) =>
        (Resolved tt,
         warn error {| pool := w; calls := calls st; writes := writes st |})
    | (Pending, w) =>
        (Pending, {| pool := w; calls := calls st; writes := writes st |})
    end.
Proof.
  unfold resume, try_catch, bind, on_pool.
  destruct (RedisPool.set E write.1 write.2 (ttl options) (pool st))
    as [[v| |] w]; reflexivity.
Qed.

(** The awaited [set] is the detached one followed by its rest. *)
Lemma set_split (key : string) (value : jsval) (st : state Params) :
  RedisCache.set E options key value st
  = match serializeValue options value with
    | inr serialized => resume E options (key, serialized) st
    | inl error => (Resolved tt, warn error st)
    end.
Proof.
  unfold RedisCache.set, resume, try_catch, bind, of_result, effect.
  destruct (serializeValue options value) as [error|serialized]; reflexivity.
Qed.

End Proxy.

(** C1 (as the code has it).  When the cached read of [proxy] rejects,
    the proxy rejects with the same error and the passthrough is not
    invoked; and a proxy call that rejects does so because the cached read
    rejected or because the passthrough did. *)
Theorem proxy_read_failure_aborts {Params : Type} (E : RedisPool.env)
    (options : RedisCache.CacheOptions Params) (params : Params) (key : string)
    (st : RedisCache.state Params) :
  RedisCache.serializeKey options params = inr key →
  (∀ e st1,
      RedisCache.get E options key st = (Js.Rejected e, st1) →
      RedisCache.proxy E options params st = (Js.Rejected e, st1)
      ∧ RedisCache.calls st1 = RedisCache.calls st)
  ∧ (∀ e st',
        RedisCache.proxy E options params st = (Js.Rejected e, st') →
        RedisCache.get E options key st = (Js.Rejected e, st')
        ∨ RedisCache.passthrough options params = Js.Rejected e).
Proof.
  intros Hkey. split.
  - intros e st1 Hget. rewrite (proxy_unfold E options params key st Hkey), Hget.
    split; [reflexivity|].
    pose proof (get_frame E options key st) as [Hcalls _].
    rewrite Hget in Hcalls. exact Hcalls.
  - intros e st'. rewrite (proxy_unfold E options params key st Hkey).
    destruct (RedisCache.get E options key st) as [[fromCache|e1|] st1].
    + destruct (Js.truthy fromCache); [discriminate|].
      destruct (RedisCache.passthrough options params) as [v|e2|];
        [discriminate | | discriminate].
      intros Heq. right. congruence.
    + intros Heq. left. exact Heq.
    + discriminate.
Qed.

Lemma proxy_read_failure_aborts_witness :
  ∃ st1,
    RedisCache.get Samples.flaky Samples.letters "letters:bob" Samples.start
    = (Js.Rejected Samples.ECONNRESET, st1)
    ∧ RedisCache.proxy Samples.flaky Samples.letters "bob" Samples.start
      = (Js.Rejected Samples.ECONNRESET, st1)
    ∧ RedisCache.calls st1 = [].
Proof.
  destruct (proxy_read_failure_aborts Samples.flaky Samples.letters "bob"
              "letters:bob" Samples.start eq_refl) as [Habort _].
  eexists. split; [reflexivity|].
  exact (Habort Samples.ECONNRESET _ eq_refl).
Defined.

(** C1, as stated, fails: here the cached read rejects, the passthrough
    would have resolved, and yet the proxy rejects without having invoked
    it. *)
Lemma proxy_read_failure_counterexample :
  (RedisCache.get Samples.flaky Samples.letters "letters:bob" Samples.start).1
  = Js.Rejected Samples.ECONNRESET
  ∧ RedisCache.passthrough Samples.letters "bob" = Js.Resolved (Js.VNum 3)
  ∧ (RedisCache.proxy Samples.flaky Samples.letters "bob" Samples.start).1
    = Js.Rejected Samples.ECONNRESET
  ∧ RedisCache.calls
      (RedisCache.proxy Samples.flaky Samples.letters "bob" Samples.start).2
    = [].
Proof. repeat split; vm_compute; reflexivity. Qed.

(** The write-back, detached.  When the cached read is a miss and the
    passthrough resolves with a value, the proxy resolves with that value
    whatever becomes of the write-back.  When the proxy returns, the store
    is as the read left it: either the write has been queued, not
    awaited, or the value could not be serialized and a warning was
    logged.  The queued write, whenever the event loop gets to it, never
    rejects, and a store write that rejects becomes one logged warning. *)
Theorem proxy_write_back_detached {Params : Type} (E : RedisPool.env)
    (options : RedisCache.CacheOptions Params) (params : Params) (key : string)
    (st st1 : RedisCache.state Params) (fromCache value : Js.jsval) :
  RedisCache.serializeKey options params = inr key →
  RedisCache.get E options key st = (Js.Resolved fromCache, st1) →
  Js.truthy fromCache = false →
  RedisCache.passthrough options params = Js.Resolved value →
  ∃ st',
    RedisCache.proxy E options params st = (Js.Resolved value, st')
    ∧ RedisPool.store (RedisCache.pool st') = RedisPool.store (RedisCache.pool st1)
    ∧ match RedisCache.serializeValue options value with
      | inr serialized =>
          RedisCache.writes st' = RedisCache.writes st1 ++ [(key, serialized)]
          ∧ RedisPool.trace (RedisCache.pool st')
            = RedisPool.trace (RedisCache.pool st1)
      | inl error =>
          RedisCache.writes st' = RedisCache.writes st1
          ∧ RedisPool.trace (RedisCache.pool st')
            = RedisPool.trace (RedisCache.pool st1)
              ++ [ RedisPool.Logged RedisPool.LWarn
                     "Error occured while updating a value in cache" (Some error) ]
      end
    ∧ (∀ write st2 error,
          (RedisCache.resume E options write st2).1 ≠ Js.Rejected error)
    ∧ (∀ write st2 error w,
          RedisPool.set E write.1 write.2 (RedisCache.ttl options)
            (RedisCache.pool st2) = (Js.Rejected error, w) →
          (RedisCache.resume E options write st2).1 = Js.Resolved tt
          ∧ RedisPool.trace (RedisCache.pool (RedisCache.resume E options write st2).2)
            = RedisPool.trace w
              ++ [ RedisPool.Logged RedisPool.LWarn
                     "Error occured while updating a value in cache" (Some error) ]).
Proof.
  intros Hkey Hget Hfalsy Hpass.
  rewrite (proxy_unfold E options params key st Hkey), Hget, Hfalsy, Hpass.
  eexists. split; [reflexivity|].
  unfold RedisCache.set_detached, RedisCache.invoke. cbn [snd].
  split; [destruct (RedisCache.serializeValue options value); reflexivity|].
  split; [destruct (RedisCache.serializeValue options value); split; reflexivity|].
  split.
  - intros write st2 error. rewrite resume_spec.
    destruct (RedisPool.set E write.1 write.2 (RedisCache.ttl options)
                (RedisCache.pool st2)) as [[v| |] w]; discriminate.
  - intros write st2 error w Hset. rewrite resume_spec, Hset.
    split; reflexivity.
Qed.

Lemma proxy_write_back_detached_witness :
  ∃ st',
    RedisCache.proxy Samples.readonly Samples.letters "bob" Samples.start
    = (Js.Resolved (Js.VNum 3), st')
    ∧ RedisCache.writes st' = [("letters:bob", "3")]
    ∧ (RedisCache.resume Samples.readonly Samples.letters ("letters:bob", "3") st').1
      = Js.Resolved tt
    ∧ RedisPool.trace
        (RedisCache.pool
           (RedisCache.resume Samples.readonly Samples.letters
              ("letters:bob", "3") st').2)
      = [ RedisPool.Acquired 7%nat; RedisPool.Sent 7%nat (RedisPool.Get "letters:bob");
          RedisPool.Released 7%nat; RedisPool.Settled None;
          RedisPool.Acquired 7%nat;
          RedisPool.Sent 7%nat (RedisPool.Set_ "letters:bob" "3" (Some 60));
          RedisPool.Released 7%nat; RedisPool.Settled (Some Samples.ECONNRESET);
          RedisPool.Logged RedisPool.LWarn
            "Error occured while updating a value in cache"
            (Some Samples.ECONNRESET) ].
Proof.
  destruct (proxy_write_back_detached Samples.readonly Samples.letters "bob"
              "letters:bob" Samples.start
              (RedisCache.get Samples.readonly Samples.letters "letters:bob"
                 Samples.start).2
              Js.VUndefined (Js.VNum 3) eq_refl eq_refl eq_refl eq_refl)
    as (st' & Hproxy & _ & Hwrite & _ & Hlogged).
  assert (Hst' : st' = (RedisCache.proxy Samples.readonly Samples.letters "bob"
                          Samples.start).2) by (rewrite Hproxy; reflexivity).
  exists st'. split; [exact Hproxy|]. split; [exact (proj1 Hwrite)|].
  destruct (Hlogged ("letters:bob", "3") st' Samples.ECONNRESET
              (RedisPool.set Samples.readonly "letters:bob" "3" (Some 60)
                 (RedisCache.pool st')).2) as [Hout Htrace].
  { rewrite Hst'. reflexivity. }
  split; [exact Hout|]. rewrite Htrace, Hst'. reflexivity.
Defined.

(** C4.  The write-back whose connection is refused: the proxy has
    resolved with the passthrough's value and queued the write; when the
    event loop gets to it, the acquire of the write is refused, [exec]
    never settles, the [catch] of [set] never runs, and the failed write
    leaves no warning: the trace holds the events of the read alone. *)
Theorem write_back_refused_not_logged :
  let run := RedisCache.proxy Samples.drained Samples.letters "bob" Samples.start in
  run.1 = Js.Resolved (Js.VNum 3)
  ∧ RedisCache.writes run.2 = [("letters:bob", "3")]
  ∧ RedisPool.grants Samples.drained (RedisPool.steps (RedisCache.pool run.2))
    = RedisPool.Refused Samples.ETIMEDOUT
  ∧ (RedisCache.resume Samples.drained Samples.letters ("letters:bob", "3") run.2).1
    = Js.Pending
  ∧ RedisPool.trace
      (RedisCache.pool (RedisCache.flush Samples.drained Samples.letters run.2))
    = [ RedisPool.Acquired 7%nat; RedisPool.Sent 7%nat (RedisPool.Get "letters:bob");
        RedisPool.Released 7%nat; RedisPool.Settled None ].
Proof. repeat split; vm_compute; reflexivity. Qed.

(** ** The proxy over a healthy environment *)

Lemma calm_healthy : RedisPool.healthy Samples.calm.
Proof. intros n. split; [exists 7%nat; reflexivity | intros cmd; reflexivity]. Qed.

Section HealthyProxy.
Import Js RedisPool RedisCache.
Context {Params : Type}.
Variable E : env.
Variable options : CacheOptions Params.
Hypothesis Hhealthy : healthy E.

Lemma cache_get_healthy (key : string) (st : state Params) :
  ∃ st1,
    RedisCache.get E options key st = (cached options (store (pool st)) key, st1)
    ∧ store (pool st1) = store (pool st).
Proof.
  destruct (get_healthy E Hhealthy key (pool st)) as (w' & Hget & Hstore).
  unfold RedisCache.get, bind, on_pool, cached. rewrite Hget.
  destruct (store (pool st) !! key) as [[v t]|]; cbn [truthy].
  - destruct (String.eqb v EmptyString); cbn [negb].
    + eexists. split; [reflexivity | exact Hstore].
    + unfold of_result. destruct (deserializeValue options (VStr v));
        eexists; (split; [reflexivity | exact Hstore]).
  - eexists. split; [reflexivity | exact Hstore].
Qed.

Lemma resume_calls (write : string * string) (st : state Params) :
  calls (resume E options write st).2 = calls st.
Proof.
  rewrite resume_spec.
  destruct (RedisPool.set E write.1 write.2 (ttl options) (pool st))
    as [[v| |] w]; reflexivity.
Qed.

Lemma drain_calls (ws : list (string * string)) :
  ∀ st : state Params,
    calls (fold_left (λ st' write, (resume E options write st').2) ws st)
    = calls st.
Proof.
  induction ws as [|write ws IH]; intros st; [reflexivity|].
  cbn [fold_left]. rewrite IH. apply resume_calls.
Qed.

(** A write with an acceptable time to live lands in the store. *)
Lemma resume_healthy (write : string * string) (st : state Params) :
  (∀ n, ttl options = Some n → 0 ≤ n) →
  store (pool (resume E options write st).2)
  = <[write.1 := (write.2, if truthy_number (ttl options) then ttl options
                            else None)]> (store (pool st)).
Proof.
  intros Httl. rewrite resume_spec.
  destruct (set_healthy E Hhealthy write.1 write.2 (ttl options) (pool st) Httl)
    as (w' & Hset & Hstore).
  rewrite Hset. exact Hstore.
Qed.

End HealthyProxy.

(** C9.  A cached string that is present and not empty, and deserializes
    to a falsy value, is a miss: the proxy invokes the passthrough once
    and gives what the passthrough gives. *)
Theorem proxy_falsy_cached_is_miss {Params : Type} (E : RedisPool.env)
    (options : RedisCache.CacheOptions Params) (params : Params) (key s : string)
    (t : option Z) (v : Js.jsval) (st : RedisCache.state Params) :
  RedisPool.healthy E →
  RedisCache.serializeKey options params = inr key →
  RedisPool.store (RedisCache.pool st) !! key = Some (s, t) →
  s ≠ EmptyString →
  RedisCache.deserializeValue options (Js.VStr s) = inr v →
  Js.truthy v = false →
  (RedisCache.proxy E options params st).1 = RedisCache.passthrough options params
  ∧ RedisCache.calls (RedisCache.proxy E options params st).2
    = RedisCache.calls st ++ [params].
Proof.
  intros Hhealthy Hkey Hheld Hs Hdes Hfalsy.
  destruct (cache_get_healthy E options Hhealthy key st) as (st1 & Hget & _).
  unfold RedisCache.cached in Hget. rewrite Hheld in Hget.
  destruct (String.eqb_spec s EmptyString) as [?|_]; [contradiction|].
  rewrite Hdes in Hget.
  exact (proxy_miss E options params key st st1 v Hkey Hget Hfalsy).
Qed.

Lemma proxy_falsy_cached_is_miss_witness :
  (RedisCache.proxy Samples.calm Samples.letters EmptyString Samples.start_zero).1
  = Js.Resolved (Js.VNum 0)
  ∧ RedisCache.calls
      (RedisCache.proxy Samples.calm Samples.letters EmptyString Samples.start_zero).2
    = [EmptyString].
Proof.
  exact (proxy_falsy_cached_is_miss Samples.calm Samples.letters EmptyString "letters:" "0"
           None (Js.VNum 0) Samples.start_zero calm_healthy eq_refl eq_refl
           ltac:(discriminate) eq_refl eq_refl).
Defined.

(** C5 (as the code has it).  With the store reachable: a held value that
    is not empty and deserializes to a truthy value is returned without
    invoking the passthrough; an absent or empty held value, or one that
    deserializes to a falsy value, is a miss, on which the passthrough is
    invoked once and its outcome returned; and
    when the key is absent, the passthrough's value serializes to a
    non-empty string that deserializes to a truthy value and the time to
    live is acceptable to the store, a second call made after the
    write-back of the first has completed is a hit, so that the two calls
    invoke the passthrough once. *)
Theorem proxy_hit_miss_round_trip {Params : Type} (E : RedisPool.env)
    (options : RedisCache.CacheOptions Params) (params : Params) (key : string)
    (st : RedisCache.state Params) :
  RedisPool.healthy E →
  RedisCache.serializeKey options params = inr key →
  (∀ s t v,
      RedisPool.store (RedisCache.pool st) !! key = Some (s, t) →
      s ≠ EmptyString →
      RedisCache.deserializeValue options (Js.VStr s) = inr v →
      Js.truthy v = true →
      (RedisCache.proxy E options params st).1 = Js.Resolved v
      ∧ RedisCache.calls (RedisCache.proxy E options params st).2
        = RedisCache.calls st)
  ∧ (RedisPool.store (RedisCache.pool st) !! key = None
     ∨ (∃ t, RedisPool.store (RedisCache.pool st) !! key = Some (EmptyString, t))
     ∨ (∃ s t v,
           RedisPool.store (RedisCache.pool st) !! key = Some (s, t)
           ∧ RedisCache.deserializeValue options (Js.VStr s) = inr v
           ∧ Js.truthy v = false) →
     (RedisCache.proxy E options params st).1 = RedisCache.passthrough options params
     ∧ RedisCache.calls (RedisCache.proxy E options params st).2
       = RedisCache.calls st ++ [params])
  ∧ (∀ v s v',
        RedisPool.store (RedisCache.pool st) !! key = None →
        (∀ n, RedisCache.ttl options = Some n → 0 ≤ n) →
        RedisCache.passthrough options params = Js.Resolved v →
        RedisCache.serializeValue options v = inr s →
        s ≠ EmptyString →
        RedisCache.deserializeValue options (Js.VStr s) = inr v' →
        Js.truthy v' = true →
        let st2 :=
          RedisCache.flush E options (RedisCache.proxy E options params st).2 in
        (RedisCache.proxy E options params st).1 = Js.Resolved v
        ∧ (RedisCache.proxy E options params st2).1 = Js.Resolved v'
        ∧ RedisCache.calls (RedisCache.proxy E options params st2).2
          = RedisCache.calls st ++ [params]).
Proof.
  intros Hhealthy Hkey.
  assert (Hhit : ∀ (st0 : RedisCache.state Params) s t v,
             RedisPool.store (RedisCache.pool st0) !! key = Some (s, t) →
             s ≠ EmptyString →
             RedisCache.deserializeValue options (Js.VStr s) = inr v →
             Js.truthy v = true →
             (RedisCache.proxy E options params st0).1 = Js.Resolved v
             ∧ RedisCache.calls (RedisCache.proxy E options params st0).2
               = RedisCache.calls st0).
  { intros st0 s t v Hheld Hs Hdes Htruthy.
    destruct (cache_get_healthy E options Hhealthy key st0) as (st1 & Hget & _).
    unfold RedisCache.cached in Hget. rewrite Hheld in Hget.
    destruct (String.eqb_spec s EmptyString) as [?|_]; [contradiction|].
    rewrite Hdes in Hget.
    destruct (proxy_hit E options params key st0 st1 v Hkey Hget Htruthy)
      as [Hproxy Hcalls].
    rewrite Hproxy. split; [reflexivity | exact Hcalls]. }
  assert (Hmiss : RedisPool.store (RedisCache.pool st) !! key = None
                  ∨ (∃ t, RedisPool.store (RedisCache.pool st) !! key
                          = Some (EmptyString, t))
                  ∨ (∃ s t v,
                        RedisPool.store (RedisCache.pool st) !! key = Some (s, t)
                        ∧ RedisCache.deserializeValue options (Js.VStr s) = inr v
                        ∧ Js.truthy v = false) →
                  (RedisCache.proxy E options params st).1
                  = RedisCache.passthrough options params
                  ∧ RedisCache.calls (RedisCache.proxy E options params st).2
                    = RedisCache.calls st ++ [params]).
  { intros Hheld.
    destruct (cache_get_healthy E options Hhealthy key st) as (st1 & Hget & _).
    assert (Hcached : ∃ fromCache,
               RedisCache.cached options (RedisPool.store (RedisCache.pool st)) key
               = Js.Resolved fromCache ∧ Js.truthy fromCache = false).
    { unfold RedisCache.cached.
      destruct Hheld as [->|[[t ->]|(s & t & v & -> & Hdes & Hfalsy)]];
        [exists Js.VUndefined; split; reflexivity..|].
      destruct (String.eqb s EmptyString);
        [exists Js.VUndefined; split; reflexivity|].
      rewrite Hdes. exists v. split; [reflexivity | exact Hfalsy]. }
    destruct Hcached as (fromCache & Hcached & Hfalsy).
    rewrite Hcached in Hget.
    exact (proxy_miss E options params key st st1 fromCache Hkey Hget Hfalsy). }
  split; [exact (Hhit st)|]. split; [exact Hmiss|].
  intros v s v' Habsent Httl Hpass Hser Hs Hdes Htruthy st2.
  destruct (Hmiss (or_introl Habsent)) as [Hfirst Hcalls1].
  rewrite Hpass in Hfirst. split; [exact Hfirst|].
  (* the state the first call leaves, and the write it has queued *)
  destruct (cache_get_healthy E options Hhealthy key st) as (st1 & Hget & _).
  assert (Hst1 : (RedisCache.proxy E options params st).2
                 = RedisCache.set_detached options key v
                     (RedisCache.invoke options params st1).2).
  { rewrite (proxy_unfold E options params key st Hkey), Hget.
    unfold RedisCache.cached. rewrite Habsent. cbn [Js.truthy].
    rewrite Hpass. reflexivity. }
  assert (Hcalls2 : RedisCache.calls st2 = RedisCache.calls st ++ [params]).
  { unfold st2, RedisCache.flush. rewrite drain_calls. exact Hcalls1. }
  assert (Hheld2 : ∃ t, RedisPool.store (RedisCache.pool st2) !! key = Some (s, t)).
  { unfold st2, RedisCache.flush. rewrite Hst1.
    unfold RedisCache.set_detached. rewrite Hser.
    cbn [RedisCache.writes RedisCache.pool RedisCache.calls].
    rewrite fold_left_app. cbn [fold_left].
    rewrite (resume_healthy E options Hhealthy) by exact Httl.
    cbn [fst snd]. eexists. apply lookup_insert_eq. }
  destruct Hheld2 as [t Hheld2].
  destruct (Hhit st2 s t v' Hheld2 Hs Hdes Htruthy) as [Hsecond Hcalls3].
  split; [exact Hsecond | rewrite Hcalls3; exact Hcalls2].
Qed.

Lemma proxy_hit_miss_round_trip_witness :
  let st2 :=
    RedisCache.flush Samples.calm Samples.letters
      (RedisCache.proxy Samples.calm Samples.letters "bob" Samples.start).2 in
  (RedisCache.proxy Samples.calm Samples.letters "bob" Samples.start).1
  = Js.Resolved (Js.VNum 3)
  ∧ (RedisCache.proxy Samples.calm Samples.letters "bob" st2).1
    = Js.Resolved (Js.VNum 3)
  ∧ RedisCache.calls (RedisCache.proxy Samples.calm Samples.letters "bob" st2).2
    = ["bob"].
Proof.
  destruct (proxy_hit_miss_round_trip Samples.calm Samples.letters "bob"
              "letters:bob" Samples.start calm_healthy eq_refl)
    as (_ & _ & Hround).
  refine (Hround (Js.VNum 3) "3" (Js.VNum 3) eq_refl _ eq_refl eq_refl
            ltac:(discriminate) eq_refl eq_refl).
  intros n Hn. injection Hn as <-. lia.
Defined.

(** C5, as stated, fails: the store holds ["0"] under the key and the
    proxy invokes the passthrough all the same; and two calls in a row,
    the write-back of the first completed in between, invoke the
    passthrough twice when its value is 0. *)
Lemma proxy_round_trip_counterexample :
  RedisPool.store (RedisCache.pool Samples.start_zero) !! "letters:"
  = Some ("0", None)
  ∧ RedisCache.calls
      (RedisCache.proxy Samples.calm Samples.letters EmptyString Samples.start_zero).2
    = [EmptyString]
  ∧ (let st1 := (RedisCache.proxy Samples.calm Samples.letters EmptyString Samples.start).2 in
     let st2 := RedisCache.flush Samples.calm Samples.letters st1 in
     RedisPool.store (RedisCache.pool st2) !! "letters:" = Some ("0", Some 60)
     ∧ RedisCache.calls
         (RedisCache.proxy Samples.calm Samples.letters EmptyString st2).2
       = [EmptyString; EmptyString]).
Proof. repeat split; vm_compute; reflexivity. Qed.

(** ** Invalidation *)

Section Invalidate.
Import Js RedisPool RedisCache.
Variable E : env.

(** What a run of the executor sends: the command, once a connection is
    granted, and nothing otherwise. *)
Lemma exec_sent (cmd : command) (w : world) :
  sent_in (trace (exec E cmd w).2)
  = sent_in (trace w)
    ++ (if grants E (steps w) is Granted _ then [cmd] else []).
Proof.
  destruct (grants E (steps w)) as [c| |] eqn:Hc.
  - rewrite (exec_granted E cmd w c Hc).
    pose proof (perform_trace E c cmd (emit (Acquired c) (tick E w))) as Htr.
    destruct (perform E c cmd _) as [[error results] w2].
    rewrite callback_spec. cbn [snd trace emit tick] in *. rewrite Htr.
    unfold sent_in. rewrite <- !app_assoc, !omap_app. reflexivity.
  - rewrite exec_not_granted by (intros c; rewrite Hc; discriminate).
    cbn. rewrite app_nil_r. reflexivity.
  - rewrite exec_not_granted by (intros c; rewrite Hc; discriminate).
    cbn. rewrite app_nil_r. reflexivity.
Qed.

Lemma invalidate_unfold {Params : Type} (options : CacheOptions Params)
    (params : Params) (key : string) (st : state Params) :
  serializeKey options params = inr key →
  invalidate E options params st
  = match del E [key] (pool st) with
    | (Resolved _, w) =>
        (Resolved tt, {| pool := w; calls := calls st; writes := writes st |})
    | (Rejected e, w) =>
        (Rejected e, {| pool := w; calls := calls st; writes := writes st |})
    | (Pending, w) =>
        (Pending, {| pool := w; calls := calls st; writes := writes st |})
    end.
Proof.
  intros Hkey. unfold invalidate, bind, of_result, on_pool. rewrite Hkey.
  destruct (del E [key] (pool st)) as [[v| |] w]; reflexivity.
Qed.

(** A write leaves every other key as it was, whatever becomes of it. *)
Lemma exec_set_other_key (k v key : string) (ex : option Z) (w : world) :
  k ≠ key → store (exec E (Set_ k v ex) w).2 !! key = store w !! key.
Proof.
  intros Hne. destruct (grants E (steps w)) as [c| |] eqn:Hc.
  - rewrite (exec_granted E _ w c Hc). unfold perform.
    cbn [steps store emit tick].
    destruct (faults E (S (steps w)) (Set_ k v ex)) as [e|];
      [rewrite callback_spec; reflexivity|].
    cbn [serve]. destruct ex as [n|]; [destruct (0 <? n)|];
      rewrite callback_spec; cbn [snd store emit with_store tick];
      try reflexivity; apply lookup_insert_ne; exact Hne.
  - rewrite exec_not_granted by (intros c; rewrite Hc; discriminate). reflexivity.
  - rewrite exec_not_granted by (intros c; rewrite Hc; discriminate). reflexivity.
Qed.

Lemma resume_other_key {Params : Type} (options : CacheOptions Params)
    (write : string * string) (key : string) (st : state Params) :
  write.1 ≠ key →
  store (pool (resume E options write st).2) !! key = store (pool st) !! key.
Proof.
  intros Hne. rewrite resume_spec.
  assert (Hset : store (RedisPool.set E write.1 write.2 (ttl options) (pool st)).2
                 !! key = store (pool st) !! key)
    by (unfold RedisPool.set; destruct (truthy_number (ttl options));
        apply exec_set_other_key, Hne).
  destruct (RedisPool.set E write.1 write.2 (ttl options) (pool st))
    as [[v| |] w]; exact Hset.
Qed.

(** Running a queue that holds no write for a key leaves that key as it
    was. *)
Lemma flush_other_key {Params : Type} (options : CacheOptions Params)
    (key : string) (st : state Params) :
  Forall (λ write, write.1 ≠ key) (writes st) →
  store (pool (flush E options st)) !! key = store (pool st) !! key.
Proof.
  unfold flush. intros Hws.
  change (store (pool st) !! key)
    with (store (pool {| pool := pool st; calls := calls st; writes := [] |})
          !! key).
  generalize {| pool := pool st; calls := calls st; writes := [] |}.
  induction Hws as [|write ws Hne _ IH]; intros st0; [reflexivity|].
  cbn [fold_left]. rewrite IH. apply resume_other_key, Hne.
Qed.

End Invalidate.

(** C6 (as the code has it).  [invalidate] sends one command at most, the
    delete of the one key of its parameters, and sends it as soon as a
    connection is granted; a delete that rejects makes [invalidate] reject
    with the same error; and with the store reachable [invalidate]
    succeeds, the key is gone, and the next [proxy] for the same
    parameters invokes the passthrough and gives what it gives, as long
    as no write-back of that key reaches the store after the delete:
    either the writes still queued have not been run, or none of them is
    for that key. *)
Theorem invalidate_deletes_key {Params : Type} (E : RedisPool.env)
    (options : RedisCache.CacheOptions Params) (params : Params) (key : string)
    (st : RedisCache.state Params) :
  RedisCache.serializeKey options params = inr key →
  RedisPool.sent_in
    (RedisPool.trace (RedisCache.pool (RedisCache.invalidate E options params st).2))
  = RedisPool.sent_in (RedisPool.trace (RedisCache.pool st))
    ++ (if RedisPool.grants E (RedisPool.steps (RedisCache.pool st))
           is RedisPool.Granted _
        then [RedisPool.Del [key]] else [])
  ∧ (∀ e w,
        RedisPool.del E [key] (RedisCache.pool st) = (Js.Rejected e, w) →
        (RedisCache.invalidate E options params st).1 = Js.Rejected e)
  ∧ (RedisPool.healthy E →
     let st1 := (RedisCache.invalidate E options params st).2 in
     (RedisCache.invalidate E options params st).1 = Js.Resolved tt
     ∧ RedisPool.store (RedisCache.pool st1) !! key = None
     ∧ RedisCache.writes st1 = RedisCache.writes st
     ∧ (RedisCache.proxy E options params st1).1
       = RedisCache.passthrough options params
     ∧ RedisCache.calls (RedisCache.proxy E options params st1).2
       = RedisCache.calls st ++ [params]
     ∧ (Forall (λ write, write.1 ≠ key) (RedisCache.writes st) →
        let st2 := RedisCache.flush E options st1 in
        (RedisCache.proxy E options params st2).1
        = RedisCache.passthrough options params
        ∧ RedisCache.calls (RedisCache.proxy E options params st2).2
          = RedisCache.calls st ++ [params])).
Proof.
  intros Hkey. rewrite (invalidate_unfold E options params key st Hkey).
  split; [|split].
  - pose proof (exec_sent E (RedisPool.Del [key]) (RedisCache.pool st)) as Hsent.
    unfold RedisPool.del.
    destruct (RedisPool.exec E (RedisPool.Del [key]) (RedisCache.pool st))
      as [[v| |] w]; exact Hsent.
  - intros e w Hdel. rewrite Hdel. reflexivity.
  - intros Hhealthy.
    destruct (del_healthy E Hhealthy key (RedisCache.pool st))
      as (w' & n & Hdel & Hstore).
    rewrite Hdel. cbn zeta. cbn [fst snd RedisCache.pool RedisCache.writes].
    assert (Hgone : RedisPool.store w' !! key = None)
      by (rewrite Hstore; apply lookup_delete_eq).
    split; [reflexivity|]. split; [exact Hgone|]. split; [reflexivity|].
    set (st1 := {| RedisCache.pool := w'; RedisCache.calls := RedisCache.calls st;
                   RedisCache.writes := RedisCache.writes st |}).
    assert (Hmiss : ∀ st0 : RedisCache.state Params,
               RedisPool.store (RedisCache.pool st0) !! key = None →
               (RedisCache.proxy E options params st0).1
               = RedisCache.passthrough options params
               ∧ RedisCache.calls (RedisCache.proxy E options params st0).2
                 = RedisCache.calls st0 ++ [params]).
    { intros st0 Hnone.
      destruct (cache_get_healthy E options Hhealthy key st0) as (st2 & Hget & _).
      unfold RedisCache.cached in Hget. rewrite Hnone in Hget.
      exact (proxy_miss E options params key st0 st2 Js.VUndefined Hkey Hget
               eq_refl). }
    destruct (Hmiss st1 Hgone) as [Hout Hcalls].
    split; [exact Hout|]. split; [exact Hcalls|].
    intros Hws. set (st2 := RedisCache.flush E options st1).
    assert (Hgone2 : RedisPool.store (RedisCache.pool st2) !! key = None)
      by (unfold st2; rewrite (flush_other_key E options key st1 Hws); exact Hgone).
    destruct (Hmiss st2 Hgone2) as [Hout2 Hcalls2].
    split; [exact Hout2|]. rewrite Hcalls2. unfold st2, RedisCache.flush.
    rewrite drain_calls. reflexivity.
Qed.

Lemma invalidate_deletes_key_witness :
  let st := Samples.start_cached in
  let st1 := (RedisCache.invalidate Samples.calm Samples.letters "bob" st).2 in
  let st2 := RedisCache.flush Samples.calm Samples.letters st1 in
  RedisCache.calls (RedisCache.proxy Samples.calm Samples.letters "bob" st).2 = []
  ∧ RedisPool.sent_in (RedisPool.trace (RedisCache.pool st1))
    = [RedisPool.Del ["letters:bob"]]
  ∧ RedisPool.store (RedisCache.pool st1) !! "letters:bob" = None
  ∧ RedisCache.calls (RedisCache.proxy Samples.calm Samples.letters "bob" st1).2
    = ["bob"]
  ∧ RedisCache.calls (RedisCache.proxy Samples.calm Samples.letters "bob" st2).2
    = ["bob"].
Proof.
  intros st st1 st2.
  destruct (invalidate_deletes_key Samples.calm Samples.letters "bob" "letters:bob"
              Samples.start_cached eq_refl) as (Hsent & _ & Hnext).
  destruct (Hnext calm_healthy) as (_ & Hgone & _ & _ & Hcalls & Hflushed).
  destruct (Hflushed ltac:(constructor)) as [_ Hcalls2].
  split; [reflexivity|]. split; [exact Hsent|]. split; [exact Hgone|].
  split; [exact Hcalls | exact Hcalls2].
Defined.

(** C6, as stated, fails.  A write-back queued by an earlier call reaches
    the store after a successful [invalidate]: the next [proxy] is a hit
    and the passthrough is not invoked again.  And a delete that fails
    because no connection is granted does not reach the caller:
    [invalidate] stays pending. *)
Lemma invalidate_counterexample :
  (let st1 := (RedisCache.proxy Samples.calm Samples.letters "bob" Samples.start).2 in
   let run := RedisCache.invalidate Samples.calm Samples.letters "bob" st1 in
   let st3 := RedisCache.flush Samples.calm Samples.letters run.2 in
   RedisCache.calls st1 = ["bob"]
   ∧ run.1 = Js.Resolved tt
   ∧ RedisPool.store (RedisCache.pool run.2) !! "letters:bob" = None
   ∧ (RedisCache.proxy Samples.calm Samples.letters "bob" st3).1
     = Js.Resolved (Js.VNum 3)
   ∧ RedisCache.calls (RedisCache.proxy Samples.calm Samples.letters "bob" st3).2
     = ["bob"])
  ∧ RedisPool.grants Samples.unreachable
      (RedisPool.steps (RedisCache.pool Samples.start_cached))
    = RedisPool.Refused Samples.ETIMEDOUT
  ∧ (RedisCache.invalidate Samples.unreachable Samples.letters "bob"
       Samples.start_cached).1
    = Js.Pending.
Proof. repeat split; vm_compute; reflexivity. Qed.

(** ** Time to live *)

Section TimeToLive.
Import Js RedisPool.

Lemma elapse_lookup (secs : Z) (s : gmap string entry) (key : string) :
  elapse secs s !! key = s !! key ≫= age secs.
Proof. unfold elapse. apply lookup_omap. Qed.

(** An entry written with a positive time to live is gone once that time
    has passed. *)
Lemma positive_ttl_expires (key value : string) (n secs : Z)
    (s : gmap string entry) :
  0 < n → n ≤ secs →
  elapse secs ((serve Samples.calm (Set_ key value (Some n)) s).2) !! key = None.
Proof.
  intros Hn Hsecs. cbn [serve]. destruct (Z.ltb_spec 0 n); [|lia].
  cbn [snd]. rewrite elapse_lookup, lookup_insert_eq. cbn.
  destruct (Z.ltb_spec secs n); [lia | reflexivity].
Qed.

End TimeToLive.

(** C10.  With an expiration of 0 or none, [set] of the pool runs the
    plain SET, without EX; so the write-back of a cache whose [ttl] is 0
    or omitted, once it has reached the store, leaves an entry that is
    still there however much time passes. *)
Theorem falsy_ttl_never_expires {Params : Type} (E : RedisPool.env)
    (options : RedisCache.CacheOptions Params) (key value : string)
    (expiration : option Z) (st : RedisCache.state Params) :
  expiration = None ∨ expiration = Some 0 →
  RedisPool.set E key value expiration
  = RedisPool.exec E (RedisPool.Set_ key value None)
  ∧ (RedisCache.ttl options = expiration →
     RedisPool.healthy E →
     ∀ secs,
       RedisPool.elapse secs
         (RedisPool.store
            (RedisCache.pool (RedisCache.resume E options (key, value) st).2))
       !! key = Some (value, None)).
Proof.
  intros Hfalsy.
  assert (Htruthy : Js.truthy_number expiration = false)
    by (destruct Hfalsy as [->| ->]; reflexivity).
  split.
  - unfold RedisPool.set. rewrite Htruthy. reflexivity.
  - intros Httl Hhealthy secs.
    rewrite (resume_healthy E options Hhealthy)
      by (intros n Hn; rewrite Httl in Hn; destruct Hfalsy as [->| ->];
          [discriminate | injection Hn as <-; lia]).
    rewrite Httl, Htruthy. cbn [fst snd].
    rewrite elapse_lookup, lookup_insert_eq. reflexivity.
Qed.

Lemma falsy_ttl_never_expires_witness :
  RedisPool.set Samples.calm "letters:bob" "3" (Some 0)
  = RedisPool.exec Samples.calm (RedisPool.Set_ "letters:bob" "3" None)
  ∧ RedisPool.elapse 1000000
      (RedisPool.store
         (RedisCache.pool
            (RedisCache.resume Samples.calm Samples.letters_kept
               ("letters:bob", "3") Samples.start).2))
    !! "letters:bob" = Some ("3", None).
Proof.
  destruct (falsy_ttl_never_expires Samples.calm Samples.letters_kept
              "letters:bob" "3" (Some 0) Samples.start (or_intror eq_refl))
    as [Hplain Hkept].
  split; [exact Hplain | exact (Hkept eq_refl calm_healthy 1000000)].
Defined.

(* ===================================================================== *)
(** * Further properties of the pool *)
(* ===================================================================== *)

(** [exec], connection not granted: whether the acquire is refused or
    never answered, the promise [exec] returns stays pending for ever;
    nothing is sent, released or logged. *)
Theorem exec_hangs_without_connection (E : RedisPool.env)
    (run : RedisPool.command) (w : RedisPool.world) :
  (∀ c, RedisPool.grants E (RedisPool.steps w) ≠ RedisPool.Granted c) →
  (RedisPool.exec E run w).1 = Js.Pending
  ∧ RedisPool.trace (RedisPool.exec E run w).2 = RedisPool.trace w
  ∧ RedisPool.store (RedisPool.exec E run w).2 = RedisPool.store w.
Proof.
  intros Hc. rewrite (exec_not_granted E run w Hc). repeat split; reflexivity.
Qed.

Lemma exec_hangs_without_connection_witness :
  (RedisPool.exec Samples.unreachable (RedisPool.Get "k") Samples.fresh).1
  = Js.Pending
  ∧ RedisPool.trace
      (RedisPool.exec Samples.unreachable (RedisPool.Get "k") Samples.fresh).2
    = [].
Proof.
  destruct (exec_hangs_without_connection Samples.unreachable (RedisPool.Get "k")
              Samples.fresh ltac:(intros c; discriminate)) as (Hp & Htr & _).
  split; [exact Hp | exact Htr].
Defined.

(** [healthcheck], connection granted: it resolves, having sent one bare
    PING on the connection and released it once; [available] is false and
    [info] is the error's message exactly when the ping failed, and both
    durations are always filled in. *)
Theorem healthcheck_reports (cfg : RedisPool.RedisConfig) (E : RedisPool.env)
    (w : RedisPool.world) (c : RedisPool.client) :
  RedisPool.grants E (RedisPool.steps w) = RedisPool.Granted c →
  ∃ result w',
    RedisPool.healthcheck cfg E w = (Js.Resolved result, w')
    ∧ RedisPool.trace w'
      = RedisPool.trace w
        ++ [ RedisPool.Acquired c; RedisPool.Sent c (RedisPool.Ping None);
             RedisPool.Released c ]
    ∧ RedisPool.available result
      = (if RedisPool.faults E (S (RedisPool.steps w)) (RedisPool.Ping None)
            is Some _ then false else true)
    ∧ RedisPool.info result
      = (Js.message
           <$> RedisPool.faults E (S (RedisPool.steps w)) (RedisPool.Ping None))
    ∧ is_Some (RedisPool.timeToAcquire result)
    ∧ is_Some (RedisPool.duration result).
Proof.
  intros Hc. unfold RedisPool.healthcheck, Js.bind, RedisPool.acquire.
  rewrite Hc. unfold RedisPool.perform.
  cbn [RedisPool.steps RedisPool.store RedisPool.emit RedisPool.tick
       RedisPool.serve].
  destruct (RedisPool.faults E (S (RedisPool.steps w)) (RedisPool.Ping None))
    as [e|]; eexists; eexists; (split; [reflexivity|]);
    cbn [RedisPool.trace RedisPool.release RedisPool.emit RedisPool.with_store
         RedisPool.tick RedisPool.available RedisPool.info
         RedisPool.timeToAcquire RedisPool.duration fmap option_fmap option_map];
    rewrite <- !app_assoc; repeat split; eauto.
Qed.

Lemma healthcheck_reports_witness :
  ∃ result w',
    RedisPool.healthcheck Samples.localhost Samples.flaky Samples.fresh
    = (Js.Resolved result, w')
    ∧ RedisPool.available result = false
    ∧ RedisPool.info result = Some "read ECONNRESET"
    ∧ RedisPool.trace w'
      = [ RedisPool.Acquired 7%nat; RedisPool.Sent 7%nat (RedisPool.Ping None);
          RedisPool.Released 7%nat ].
Proof.
  destruct (healthcheck_reports Samples.localhost Samples.flaky Samples.fresh
              7%nat eq_refl) as (result & w' & Hrun & Htr & Hav & Hinfo & _).
  exists result, w'. repeat split; assumption.
Defined.

Section HealthcheckTiming.
Import Js RedisPool.
Variable E : env.

(** Reading the clock and measuring from that reading gives the time that
    has passed, split into seconds and nanoseconds. *)
Lemma hrtime_since_now (w w' : world) :
  hrtime_since (hrtime_now w) w'
  = ((now w' - now w) / 1000000000, (now w' - now w) mod 1000000000).
Proof.
  unfold hrtime_since, hrtime_now. cbn [fst snd].
  replace (now w / 1000000000 * 1000000000 + now w mod 1000000000) with (now w)
    by (pose proof (Z.div_mod (now w) 1000000000 ltac:(lia)); lia).
  reflexivity.
Qed.

Lemma slow_iff (d : Z) :
  0 ≤ d →
  (0 <? d / 1000000000) || (50 * Utils.nanosecondsPerMillisecond <? d mod 1000000000)
  = (50000000 <? d).
Proof.
  intros Hd. unfold Utils.nanosecondsPerMillisecond.
  destruct (Z_lt_le_dec d 1000000000) as [Hlt|Hge].
  - rewrite Z.div_small, Z.mod_small by lia. reflexivity.
  - assert (0 < d / 1000000000) by (apply Z.div_str_pos; lia).
    destruct (Z.ltb_spec 0 (d / 1000000000)); [|lia].
    destruct (Z.ltb_spec 50000000 d); [reflexivity | lia].
Qed.

End HealthcheckTiming.

(** [healthcheck], what it measures: [timeToAcquire] renders the time the
    acquire took and [duration] the time the acquire and the ping took
    together; the warning is set exactly when the latter exceeds 50
    milliseconds. *)
Theorem healthcheck_timing (cfg : RedisPool.RedisConfig) (E : RedisPool.env)
    (w : RedisPool.world) (c : RedisPool.client) :
  RedisPool.grants E (RedisPool.steps w) = RedisPool.Granted c →
  let acquiring := RedisPool.elapsed E (RedisPool.steps w) in
  let total := acquiring + RedisPool.elapsed E (S (RedisPool.steps w)) in
  0 ≤ total →
  ∃ result w',
    RedisPool.healthcheck cfg E w = (Js.Resolved result, w')
    ∧ RedisPool.timeToAcquire result
      = Some (Utils.formatDuration
                (acquiring / 1000000000, acquiring mod 1000000000))
    ∧ RedisPool.duration result
      = Some (Utils.formatDuration (total / 1000000000, total mod 1000000000))
    ∧ RedisPool.warning result
      = (if 50000000 <? total then Some "Connection slower than 50ms" else None).
Proof.
  intros Hc acquiring total Htotal.
  unfold RedisPool.healthcheck, Js.bind, RedisPool.acquire. rewrite Hc.
  set (w1 := RedisPool.emit (RedisPool.Acquired c) (RedisPool.tick E w)).
  assert (Hnow2 : ∀ error results w2,
             RedisPool.perform E c (RedisPool.Ping None) w1 = (error, results, w2) →
             RedisPool.now w2 - RedisPool.now w = total).
  { intros error results w2. unfold RedisPool.perform, w1.
    cbn [RedisPool.steps RedisPool.store RedisPool.emit RedisPool.tick
         RedisPool.serve].
    destruct (RedisPool.faults E (S (RedisPool.steps w)) (RedisPool.Ping None));
      intros [= _ _ <-];
      cbn [RedisPool.now RedisPool.with_store RedisPool.emit RedisPool.tick
           RedisPool.steps];
      unfold total, acquiring; lia. }
  destruct (RedisPool.perform E c (RedisPool.Ping None) w1)
    as [[error results] w2] eqn:Hperform.
  specialize (Hnow2 error results w2 eq_refl).
  eexists. eexists. split; [reflexivity|].
  cbn [RedisPool.timeToAcquire RedisPool.duration RedisPool.warning].
  rewrite !hrtime_since_now, Hnow2.
  replace (RedisPool.now w1 - RedisPool.now w) with acquiring
    by (unfold w1, acquiring; cbn [RedisPool.now RedisPool.emit RedisPool.tick]; lia).
  cbn [fst snd]. rewrite (slow_iff total Htotal). repeat split; reflexivity.
Qed.

Lemma healthcheck_timing_witness :
  ∃ result w',
    RedisPool.healthcheck Samples.localhost Samples.sluggish Samples.fresh
    = (Js.Resolved result, w')
    ∧ RedisPool.timeToAcquire result = Some "30.0000ms"
    ∧ RedisPool.duration result = Some "60.0000ms"
    ∧ RedisPool.warning result = Some "Connection slower than 50ms".
Proof.
  destruct (healthcheck_timing Samples.localhost Samples.sluggish Samples.fresh
              7%nat eq_refl ltac:(vm_compute; discriminate))
    as (result & w' & Hrun & Hacq & Hdur & Hwarn).
  exists result, w'. repeat split; assumption.
Defined.

(** [validate]: the probe never rejects and never stays pending; it sends
    one bare PING on the connection it is given, without acquiring or
    releasing anything, and answers true exactly when the ping came back
    without an error. *)
Theorem validate_never_rejects (E : RedisPool.env) (c : RedisPool.client)
    (w : RedisPool.world) :
  ∃ w',
    RedisPool.validate E c w
    = (Js.Resolved
         (if RedisPool.faults E (RedisPool.steps w) (RedisPool.Ping None)
             is Some _ then false else true), w')
    ∧ RedisPool.trace w'
      = RedisPool.trace w ++ [RedisPool.Sent c (RedisPool.Ping None)]
    ∧ RedisPool.store w' = RedisPool.store w.
Proof.
  unfold RedisPool.validate, RedisPool.perform.
  cbn [RedisPool.steps RedisPool.store RedisPool.emit RedisPool.serve].
  destruct (RedisPool.faults E (RedisPool.steps w) (RedisPool.Ping None));
    eexists; repeat split; reflexivity.
Qed.

Section FactoryLog.
Import Js RedisPool.

Lemma handlers_log (c : client) (evs : list transport_event) :
  ∀ st,
    errors_logged (logged (fold_left (handle c) evs st))
    = errors_logged (logged st) ++ errors_emitted evs.
Proof.
  induction evs as [|ev evs IH]; intros st.
  - cbn. rewrite app_nil_r. reflexivity.
  - cbn [fold_left]. rewrite IH. unfold errors_emitted at 2.
    destruct ev as [e|]; cbn [handle omap list_omap].
    + fold (errors_emitted evs). unfold on_error.
      destruct (negb (fulfilled st)); cbn [logged];
        unfold errors_logged; rewrite omap_app, <- app_assoc; reflexivity.
    + fold (errors_emitted evs). unfold on_ready. cbn [logged].
      unfold errors_logged. rewrite omap_app. cbn. rewrite app_nil_r.
      reflexivity.
Qed.

End FactoryLog.

(** [create], logging: every error the transport emits is logged at level
    error, in order, whether it comes before the connection is ready
    (and rejects the creation) or after the promise is settled (and
    changes nothing else). *)
Theorem create_logs_every_error (nextId : Z) (c : RedisPool.client)
    (evs : list RedisPool.transport_event) :
  RedisPool.errors_logged (RedisPool.logged (RedisPool.create nextId c evs).2)
  = RedisPool.errors_emitted evs.
Proof.
  unfold RedisPool.create. cbn [snd]. rewrite handlers_log. reflexivity.
Qed.

(** [ping], default message: an omitted or empty message is replaced by
    ["ping"], so the bare PING is never sent; on a reachable store the
    call resolves with the message sent. *)
Theorem ping_message_default (E : RedisPool.env) (message : option string)
    (w : RedisPool.world) :
  RedisPool.healthy E →
  let sent := match message with
              | Some m => if String.eqb m EmptyString then "ping" else m
              | None => "ping"
              end in
  ∃ w',
    RedisPool.ping E message w = (Js.Resolved (Js.VStr sent), w')
    ∧ RedisPool.sent_in (RedisPool.trace w')
      = RedisPool.sent_in (RedisPool.trace w) ++ [RedisPool.Ping (Some sent)]
    ∧ sent ≠ EmptyString.
Proof.
  intros Hhealthy sent.
  destruct (exec_healthy E Hhealthy (RedisPool.Ping (Some sent)) w)
    as (w' & Hexec & _ & Hsent).
  exists w'. split; [exact Hexec|]. split; [exact Hsent|].
  unfold sent. destruct message as [m|]; [|discriminate].
  destruct (String.eqb_spec m EmptyString); [discriminate | assumption].
Qed.

Lemma ping_message_default_witness :
  ∃ w',
    RedisPool.ping Samples.calm (Some EmptyString) Samples.fresh
    = (Js.Resolved (Js.VStr "ping"), w').
Proof.
  destruct (ping_message_default Samples.calm (Some EmptyString) Samples.fresh
              calm_healthy) as (w' & Hping & _).
  exists w'. exact Hping.
Defined.

Section Deleting.
Import RedisPool.

(** Deleting keys leaves any key either gone or as it was. *)
Lemma del_keys_keeps (key : string) (keys : list string) :
  ∀ s : gmap string (string * option Z),
    (del_keys keys s).2 !! key = None ∨ (del_keys keys s).2 !! key = s !! key.
Proof.
  induction keys as [|k keys IH]; intros s; [right; reflexivity|].
  cbn [del_keys]. specialize (IH (delete k s)).
  destruct (del_keys keys (delete k s)) as [n s']. cbn [snd] in *.
  destruct IH as [IH|IH]; [left; exact IH|]. rewrite IH.
  destruct (decide (k = key)) as [->|Hne].
  - left. apply lookup_delete_eq.
  - right. apply lookup_delete_ne. exact Hne.
Qed.

(** A key that is among those deleted is gone. *)
Lemma del_keys_removes (key : string) (keys : list string) :
  ∀ s : gmap string (string * option Z),
    key ∈ keys → (del_keys keys s).2 !! key = None.
Proof.
  induction keys as [|k keys IH]; intros s Hin; [inversion Hin|].
  cbn [del_keys].
  pose proof (del_keys_keeps key keys (delete k s)) as Hkeep.
  specialize (IH (delete k s)).
  destruct (del_keys keys (delete k s)) as [n s']. cbn [snd] in *.
  apply elem_of_cons in Hin. destruct Hin as [<-|Hin]; [|exact (IH Hin)].
  destruct Hkeep as [H|H]; [exact H | rewrite H; apply lookup_delete_eq].
Qed.

End Deleting.

(** [set], [get] and [del] composed, on a reachable store: a value set
    with an expiration the store accepts is what [get] then resolves
    with, and after [del] of a list of keys containing the key, [get]
    resolves with null. *)
Theorem set_get_del_round_trip (E : RedisPool.env) (key value : string)
    (expiration : option Z) (keys : list string) (w : RedisPool.world) :
  RedisPool.healthy E →
  (∀ n, expiration = Some n → 0 ≤ n) →
  key ∈ keys →
  let w1 := (RedisPool.set E key value expiration w).2 in
  let w2 := (RedisPool.get E key w1).2 in
  let w3 := (RedisPool.del E keys w2).2 in
  (RedisPool.get E key w1).1 = Js.Resolved (Js.VStr value)
  ∧ (∃ n, (RedisPool.del E keys w2).1 = Js.Resolved (Js.VNum n))
  ∧ (RedisPool.get E key w3).1 = Js.Resolved Js.VNull.
Proof.
  intros Hhealthy Hex Hin w1 w2 w3.
  destruct (set_healthy E Hhealthy key value expiration w Hex) as (w1' & Hset & Hs1).
  assert (Hw1 : w1 = w1') by (unfold w1; rewrite Hset; reflexivity).
  destruct (get_healthy E Hhealthy key w1) as (w2' & Hget & _).
  assert (Hheld : RedisPool.store w1 !! key
                  = Some (value, if Js.truthy_number expiration then expiration
                                 else None))
    by (rewrite Hw1, Hs1; apply lookup_insert_eq).
  rewrite Hheld in Hget.
  split; [rewrite Hget; reflexivity|].
  destruct (exec_healthy E Hhealthy (RedisPool.Del keys) w2) as (w3' & Hdel & Hs3 & _).
  fold (RedisPool.del E keys w2) in Hdel.
  cbn [RedisPool.serve] in Hdel, Hs3.
  pose proof (del_keys_removes key keys (RedisPool.store w2) Hin) as Hgone.
  destruct (RedisPool.del_keys keys (RedisPool.store w2)) as [n s3].
  cbn [fst snd] in *.
  split; [exists n; rewrite Hdel; reflexivity|].
  destruct (get_healthy E Hhealthy key w3) as (w4 & Hget3 & _).
  assert (Hnone : RedisPool.store w3 !! key = None)
    by (unfold w3; rewrite Hdel; cbn [snd]; rewrite Hs3; exact Hgone).
  rewrite Hnone in Hget3. rewrite Hget3. reflexivity.
Qed.

Lemma set_get_del_round_trip_witness :
  let w1 := (RedisPool.set Samples.calm "k" "v" (Some 5) Samples.fresh).2 in
  let w2 := (RedisPool.get Samples.calm "k" w1).2 in
  let w3 := (RedisPool.del Samples.calm ["j"; "k"] w2).2 in
  (RedisPool.get Samples.calm "k" w1).1 = Js.Resolved (Js.VStr "v")
  ∧ (RedisPool.get Samples.calm "k" w3).1 = Js.Resolved Js.VNull.
Proof.
  destruct (set_get_del_round_trip Samples.calm "k" "v" (Some 5) ["j"; "k"]
              Samples.fresh calm_healthy
              ltac:(intros n [= <-]; lia)
              ltac:(repeat constructor))
    as (Hget & _ & Hgone).
  split; [exact Hget | exact Hgone].
Defined.

(* ===================================================================== *)
(** * Further properties of the cache *)
(* ===================================================================== *)

Section ProxyStates.
Import Js RedisPool RedisCache.
Context {Params : Type}.
Variable E : env.
Variable options : CacheOptions Params.

(** The state a miss leaves when the passthrough resolves and its value
    can be serialized. *)
Lemma proxy_miss_state (params : Params) (key serialized : string)
    (st st1 : state Params) (fromCache value : jsval) :
  serializeKey options params = inr key →
  RedisCache.get E options key st = (Resolved fromCache, st1) →
  truthy fromCache = false →
  passthrough options params = Resolved value →
  serializeValue options value = inr serialized →
  proxy E options params st
  = (Resolved value,
     {| pool := pool st1; calls := calls st ++ [params];
        writes := writes st ++ [(key, serialized)] |}).
Proof.
  intros Hkey Hget Hfalsy Hpass Hser.
  rewrite (proxy_unfold E options params key st Hkey), Hget, Hfalsy, Hpass.
  unfold set_detached, invoke. rewrite Hser. cbn [snd pool calls writes].
  pose proof (get_frame E options key st) as [Hcalls Hwrites].
  rewrite Hget in Hcalls, Hwrites. cbn [snd] in Hcalls, Hwrites.
  rewrite Hcalls, Hwrites. reflexivity.
Qed.

(** What the cached read sends. *)
Lemma cache_get_sent (key : string) (st : state Params) :
  sent_in (trace (pool (RedisCache.get E options key st).2))
  = sent_in (trace (pool st))
    ++ (if grants E (steps (pool st)) is Granted _ then [Get key] else []).
Proof.
  pose proof (exec_sent E (Get key) (pool st)) as Hsent.
  unfold RedisCache.get, bind, on_pool, RedisPool.get.
  destruct (exec E (Get key) (pool st)) as [[result| |] w]; cbn [snd] in *;
    try exact Hsent.
  destruct (truthy result); [|exact Hsent].
  unfold of_result. destruct (deserializeValue options result); exact Hsent.
Qed.

Hypothesis Hhealthy : healthy E.

(** A reachable store and a held value that is absent, empty, or falsy
    once deserialized: the read resolves with a falsy value. *)
Lemma cache_get_miss (key : string) (st : state Params) :
  store (pool st) !! key = None
  ∨ (∃ t, store (pool st) !! key = Some (EmptyString, t))
  ∨ (∃ s t v, store (pool st) !! key = Some (s, t)
              ∧ deserializeValue options (VStr s) = inr v ∧ truthy v = false) →
  ∃ fromCache st1,
    RedisCache.get E options key st = (Resolved fromCache, st1)
    ∧ truthy fromCache = false
    ∧ store (pool st1) = store (pool st).
Proof.
  intros Hheld.
  destruct (cache_get_healthy E options Hhealthy key st) as (st1 & Hget & Hstore).
  unfold cached in Hget.
  destruct Hheld as [Hn|[[t Hn]|(s & t & v & Hn & Hdes & Hfalsy)]];
    rewrite Hn in Hget.
  - exists VUndefined, st1. repeat split; assumption.
  - exists VUndefined, st1. repeat split; assumption.
  - destruct (String.eqb s EmptyString).
    + exists VUndefined, st1. repeat split; assumption.
    + rewrite Hdes in Hget. exists v, st1. repeat split; assumption.
Qed.

(** The last write queued is in the store once the queue has been run. *)
Lemma flush_lands (key serialized : string) (ws : list (string * string))
    (st : state Params) :
  (∀ n, ttl options = Some n → 0 ≤ n) →
  writes st = ws ++ [(key, serialized)] →
  (∃ t, store (pool (flush E options st)) !! key = Some (serialized, t))
  ∧ calls (flush E options st) = calls st.
Proof.
  intros Httl Hws. unfold flush. split; [|rewrite drain_calls; reflexivity].
  rewrite Hws, fold_left_app. cbn [fold_left].
  rewrite (resume_healthy E options Hhealthy) by exact Httl.
  cbn [fst snd]. eexists. apply lookup_insert_eq.
Qed.

End ProxyStates.

Section ProxyRuns.
Import Js RedisPool RedisCache.
Context {Params : Type}.
Variable E : env.
Variable options : CacheOptions Params.
Hypothesis Hhealthy : healthy E.

(** A miss on a reachable store, the passthrough resolving with a value
    that can be serialized: the call resolves with the value, the store is
    as it was, the passthrough has been invoked and the write queued. *)
Lemma proxy_miss_run (params : Params) (key serialized : string)
    (st : state Params) (value : jsval) :
  serializeKey options params = inr key →
  store (pool st) !! key = None
  ∨ (∃ t, store (pool st) !! key = Some (EmptyString, t))
  ∨ (∃ s t v, store (pool st) !! key = Some (s, t)
              ∧ deserializeValue options (VStr s) = inr v ∧ truthy v = false) →
  passthrough options params = Resolved value →
  serializeValue options value = inr serialized →
  ∃ st1,
    proxy E options params st = (Resolved value, st1)
    ∧ store (pool st1) = store (pool st)
    ∧ calls st1 = calls st ++ [params]
    ∧ writes st1 = writes st ++ [(key, serialized)].
Proof.
  intros Hkey Hheld Hpass Hser.
  destruct (cache_get_miss E options Hhealthy key st Hheld)
    as (fromCache & st1 & Hget & Hfalsy & Hstore).
  rewrite (proxy_miss_state E options params key serialized st st1 fromCache value
             Hkey Hget Hfalsy Hpass Hser).
  eexists. split; [reflexivity|]. repeat split. exact Hstore.
Qed.

End ProxyRuns.

(** [proxy] and [invalidate], key serializer throwing: the call rejects
    with what the serializer threw, and nothing else has happened: no
    command sent, no passthrough invoked, no write queued. *)
Theorem key_serializer_failure_aborts {Params : Type} (E : RedisPool.env)
    (options : RedisCache.CacheOptions Params) (params : Params)
    (st : RedisCache.state Params) (e : Js.Error) :
  RedisCache.serializeKey options params = inl e →
  RedisCache.proxy E options params st = (Js.Rejected e, st)
  ∧ RedisCache.invalidate E options params st = (Js.Rejected e, st).
Proof.
  intros Hkey.
  unfold RedisCache.proxy, RedisCache.invalidate, Js.bind, Js.of_result.
  rewrite Hkey. split; reflexivity.
Qed.

Lemma key_serializer_failure_aborts_witness :
  RedisCache.proxy Samples.calm Samples.letters_strict EmptyString Samples.start
  = (Js.Rejected (Js.mkError "empty name"), Samples.start).
Proof.
  exact (proj1 (key_serializer_failure_aborts Samples.calm Samples.letters_strict
                  EmptyString Samples.start (Js.mkError "empty name") eq_refl)).
Defined.

(** [proxy], held value that cannot be deserialized: the call rejects with
    what the deserializer threw, without invoking the passthrough and
    without touching the entry, which is therefore still there for the
    next call. *)
Theorem proxy_corrupt_entry_aborts {Params : Type} (E : RedisPool.env)
    (options : RedisCache.CacheOptions Params) (params : Params) (key s : string)
    (t : option Z) (e : Js.Error) (st : RedisCache.state Params) :
  RedisPool.healthy E →
  RedisCache.serializeKey options params = inr key →
  RedisPool.store (RedisCache.pool st) !! key = Some (s, t) →
  s ≠ EmptyString →
  RedisCache.deserializeValue options (Js.VStr s) = inl e →
  let st' := (RedisCache.proxy E options params st).2 in
  (RedisCache.proxy E options params st).1 = Js.Rejected e
  ∧ RedisCache.calls st' = RedisCache.calls st
  ∧ RedisCache.writes st' = RedisCache.writes st
  ∧ RedisPool.store (RedisCache.pool st') !! key = Some (s, t).
Proof.
  intros Hhealthy Hkey Hheld Hs Hdes st'.
  destruct (cache_get_healthy E options Hhealthy key st) as (st1 & Hget & Hstore).
  unfold RedisCache.cached in Hget. rewrite Hheld in Hget.
  destruct (String.eqb_spec s EmptyString) as [?|_]; [contradiction|].
  rewrite Hdes in Hget.
  pose proof (get_frame E options key st) as [Hcalls Hwrites].
  rewrite Hget in Hcalls, Hwrites. cbn [snd] in Hcalls, Hwrites.
  unfold st'. rewrite (proxy_unfold E options params key st Hkey), Hget.
  cbn [fst snd]. rewrite Hstore. repeat split; assumption.
Qed.

Lemma proxy_corrupt_entry_aborts_witness :
  (RedisCache.proxy Samples.calm Samples.letters "bob" Samples.start_corrupt).1
  = Js.Rejected (Js.mkError "Unexpected token")
  ∧ RedisCache.calls
      (RedisCache.proxy Samples.calm Samples.letters "bob" Samples.start_corrupt).2
    = [].
Proof.
  destruct (proxy_corrupt_entry_aborts Samples.calm Samples.letters "bob"
              "letters:bob" "three" None (Js.mkError "Unexpected token")
              Samples.start_corrupt calm_healthy eq_refl eq_refl
              ltac:(discriminate) eq_refl) as (Hout & Hcalls & _).
  split; [exact Hout | exact Hcalls].
Defined.

(** [proxy], connection not granted: the cached read never settles, so
    the call stays pending for ever; the passthrough is not invoked and
    nothing is sent. *)
Theorem proxy_hangs_without_connection {Params : Type} (E : RedisPool.env)
    (options : RedisCache.CacheOptions Params) (params : Params) (key : string)
    (st : RedisCache.state Params) :
  RedisCache.serializeKey options params = inr key →
  (∀ c, RedisPool.grants E (RedisPool.steps (RedisCache.pool st))
        ≠ RedisPool.Granted c) →
  let st' := (RedisCache.proxy E options params st).2 in
  (RedisCache.proxy E options params st).1 = Js.Pending
  ∧ RedisCache.calls st' = RedisCache.calls st
  ∧ RedisCache.writes st' = RedisCache.writes st
  ∧ RedisPool.trace (RedisCache.pool st') = RedisPool.trace (RedisCache.pool st).
Proof.
  intros Hkey Hc st'.
  assert (Hget : RedisCache.get E options key st
                 = (Js.Pending,
                    {| RedisCache.pool := RedisPool.tick E (RedisCache.pool st);
                       RedisCache.calls := RedisCache.calls st;
                       RedisCache.writes := RedisCache.writes st |})).
  { unfold RedisCache.get, Js.bind, RedisCache.on_pool, RedisPool.get.
    rewrite (exec_not_granted E _ _ Hc). reflexivity. }
  unfold st'. rewrite (proxy_unfold E options params key st Hkey), Hget.
  repeat split; reflexivity.
Qed.

Lemma proxy_hangs_without_connection_witness :
  (RedisCache.proxy Samples.starved Samples.letters "bob" Samples.start).1
  = Js.Pending
  ∧ RedisCache.calls
      (RedisCache.proxy Samples.starved Samples.letters "bob" Samples.start).2
    = [].
Proof.
  destruct (proxy_hangs_without_connection Samples.starved Samples.letters "bob"
              "letters:bob" Samples.start eq_refl ltac:(intros c; discriminate))
    as (Hout & Hcalls & _).
  split; [exact Hout | exact Hcalls].
Defined.

(** [proxy], two misses in a row: a second call whose read comes before
    the write-back of the first has reached the store misses as well; the
    passthrough is invoked by both and both queue a write (no call waits
    for another one's result). *)
Theorem proxy_misses_not_deduplicated {Params : Type} (E : RedisPool.env)
    (options : RedisCache.CacheOptions Params) (params : Params)
    (key serialized : string) (value : Js.jsval) (st : RedisCache.state Params) :
  RedisPool.healthy E →
  RedisCache.serializeKey options params = inr key →
  RedisPool.store (RedisCache.pool st) !! key = None →
  RedisCache.passthrough options params = Js.Resolved value →
  RedisCache.serializeValue options value = inr serialized →
  let st1 := (RedisCache.proxy E options params st).2 in
  let st2 := (RedisCache.proxy E options params st1).2 in
  (RedisCache.proxy E options params st1).1 = Js.Resolved value
  ∧ RedisCache.calls st2 = RedisCache.calls st ++ [params; params]
  ∧ RedisCache.writes st2
    = RedisCache.writes st ++ [(key, serialized); (key, serialized)].
Proof.
  intros Hhealthy Hkey Habsent Hpass Hser st1 st2.
  destruct (proxy_miss_run E options Hhealthy params key serialized st value
              Hkey (or_introl Habsent) Hpass Hser)
    as (st1' & Hfirst & Hstore1 & Hcalls1 & Hwrites1).
  assert (Hst1 : st1 = st1') by (unfold st1; rewrite Hfirst; reflexivity).
  assert (Habsent1 : RedisPool.store (RedisCache.pool st1) !! key = None)
    by (rewrite Hst1, Hstore1; exact Habsent).
  destruct (proxy_miss_run E options Hhealthy params key serialized st1 value
              Hkey (or_introl Habsent1) Hpass Hser)
    as (st2' & Hsecond & _ & Hcalls2 & Hwrites2).
  unfold st2. rewrite Hsecond. cbn [fst snd].
  rewrite Hcalls2, Hwrites2, Hst1, Hcalls1, Hwrites1, <- !app_assoc.
  repeat split; reflexivity.
Qed.

Lemma proxy_misses_not_deduplicated_witness :
  let st1 := (RedisCache.proxy Samples.calm Samples.letters "bob" Samples.start).2 in
  let st2 := (RedisCache.proxy Samples.calm Samples.letters "bob" st1).2 in
  RedisCache.calls st2 = ["bob"; "bob"]
  ∧ RedisCache.writes st2 = [("letters:bob", "3"); ("letters:bob", "3")].
Proof.
  destruct (proxy_misses_not_deduplicated Samples.calm Samples.letters "bob"
              "letters:bob" "3" (Js.VNum 3) Samples.start calm_healthy
              eq_refl eq_refl eq_refl eq_refl) as (_ & Hcalls & Hwrites).
  split; [exact Hcalls | exact Hwrites].
Defined.

(** [proxy], passthrough failing after a miss: the call rejects with the
    passthrough's error, having invoked it once, and no write-back is
    started: nothing is queued and the store is as the read left it. *)
Theorem proxy_failed_passthrough_not_cached {Params : Type} (E : RedisPool.env)
    (options : RedisCache.CacheOptions Params) (params : Params) (key : string)
    (st st1 : RedisCache.state Params) (fromCache : Js.jsval) (e : Js.Error) :
  RedisCache.serializeKey options params = inr key →
  RedisCache.get E options key st = (Js.Resolved fromCache, st1) →
  Js.truthy fromCache = false →
  RedisCache.passthrough options params = Js.Rejected e →
  RedisCache.proxy E options params st
  = (Js.Rejected e,
     {| RedisCache.pool := RedisCache.pool st1;
        RedisCache.calls := RedisCache.calls st ++ [params];
        RedisCache.writes := RedisCache.writes st |}).
Proof.
  intros Hkey Hget Hfalsy Hpass.
  rewrite (proxy_unfold E options params key st Hkey), Hget, Hfalsy, Hpass.
  pose proof (get_frame E options key st) as [Hcalls Hwrites].
  rewrite Hget in Hcalls, Hwrites. cbn [snd] in Hcalls, Hwrites.
  unfold RedisCache.invoke. cbn [snd]. rewrite Hcalls, Hwrites. reflexivity.
Qed.

Lemma proxy_failed_passthrough_not_cached_witness :
  ∃ st',
    RedisCache.proxy Samples.calm Samples.letters_down "bob" Samples.start
    = (Js.Rejected (Js.mkError "source down"), st')
    ∧ RedisCache.calls st' = ["bob"]
    ∧ RedisCache.writes st' = [].
Proof.
  eexists. split.
  - exact (proxy_failed_passthrough_not_cached Samples.calm Samples.letters_down
             "bob" "letters:bob" Samples.start
             (RedisCache.get Samples.calm Samples.letters_down "letters:bob"
                Samples.start).2
             Js.VUndefined (Js.mkError "source down")
             eq_refl eq_refl eq_refl eq_refl).
  - split; reflexivity.
Defined.

(** [proxy], hit: the only command sent is the GET of the key; the entry
    is left as it was, with the time to live it had, and no write is
    queued. *)
Theorem proxy_hit_leaves_store {Params : Type} (E : RedisPool.env)
    (options : RedisCache.CacheOptions Params) (params : Params) (key s : string)
    (t : option Z) (v : Js.jsval) (st : RedisCache.state Params) :
  RedisPool.healthy E →
  RedisCache.serializeKey options params = inr key →
  RedisPool.store (RedisCache.pool st) !! key = Some (s, t) →
  s ≠ EmptyString →
  RedisCache.deserializeValue options (Js.VStr s) = inr v →
  Js.truthy v = true →
  let st' := (RedisCache.proxy E options params st).2 in
  RedisPool.store (RedisCache.pool st') = RedisPool.store (RedisCache.pool st)
  ∧ RedisCache.writes st' = RedisCache.writes st
  ∧ RedisPool.sent_in (RedisPool.trace (RedisCache.pool st'))
    = RedisPool.sent_in (RedisPool.trace (RedisCache.pool st))
      ++ [RedisPool.Get key].
Proof.
  intros Hhealthy Hkey Hheld Hs Hdes Htruthy st'.
  destruct (cache_get_healthy E options Hhealthy key st) as (st1 & Hget & Hstore).
  unfold RedisCache.cached in Hget. rewrite Hheld in Hget.
  destruct (String.eqb_spec s EmptyString) as [?|_]; [contradiction|].
  rewrite Hdes in Hget.
  pose proof (get_frame E options key st) as [_ Hwrites].
  pose proof (cache_get_sent E options key st) as Hsent.
  rewrite Hget in Hwrites, Hsent. cbn [snd] in Hwrites, Hsent.
  destruct (Hhealthy (RedisPool.steps (RedisCache.pool st))) as [[c Hc] _].
  rewrite Hc in Hsent.
  destruct (proxy_hit E options params key st st1 v Hkey Hget Htruthy) as [Hproxy _].
  unfold st'. rewrite Hproxy. repeat split; assumption.
Qed.

Lemma proxy_hit_leaves_store_witness :
  let st := {| RedisCache.pool :=
                 RedisPool.with_store {[ "letters:bob" := ("3", Some 60) ]}
                   Samples.fresh;
               RedisCache.calls := []; RedisCache.writes := [] |} in
  let st' := (RedisCache.proxy Samples.calm Samples.letters "bob" st).2 in
  RedisPool.store (RedisCache.pool st') !! "letters:bob" = Some ("3", Some 60)
  ∧ RedisCache.writes st' = [].
Proof.
  intros st st'.
  destruct (proxy_hit_leaves_store Samples.calm Samples.letters "bob"
              "letters:bob" "3" (Some 60) (Js.VNum 3) st calm_healthy
              eq_refl eq_refl ltac:(discriminate) eq_refl eq_refl)
    as (Hstore & Hwrites & _).
  split; [unfold st'; rewrite Hstore; reflexivity | exact Hwrites].
Defined.

(** [invalidate] against a write-back still on its way: a write queued by
    a call made before the invalidation reaches the store after the
    delete, so the invalidated key is populated again and the next call
    is served from the cache without the passthrough. *)
Theorem invalidate_overtaken_by_write_back {Params : Type} (E : RedisPool.env)
    (options : RedisCache.CacheOptions Params) (params : Params)
    (key serialized : string) (value cachedValue : Js.jsval)
    (st : RedisCache.state Params) :
  RedisPool.healthy E →
  (∀ n, RedisCache.ttl options = Some n → 0 ≤ n) →
  RedisCache.serializeKey options params = inr key →
  RedisPool.store (RedisCache.pool st) !! key = None →
  RedisCache.passthrough options params = Js.Resolved value →
  RedisCache.serializeValue options value = inr serialized →
  serialized ≠ EmptyString →
  RedisCache.deserializeValue options (Js.VStr serialized) = inr cachedValue →
  Js.truthy cachedValue = true →
  let st1 := (RedisCache.proxy E options params st).2 in
  let st2 := (RedisCache.invalidate E options params st1).2 in
  let st3 := RedisCache.flush E options st2 in
  (RedisCache.invalidate E options params st1).1 = Js.Resolved tt
  ∧ (RedisCache.proxy E options params st3).1 = Js.Resolved cachedValue
  ∧ RedisCache.calls (RedisCache.proxy E options params st3).2
    = RedisCache.calls st ++ [params].
Proof.
  intros Hhealthy Httl Hkey Habsent Hpass Hser Hs Hdes Htruthy st1 st2 st3.
  destruct (proxy_miss_run E options Hhealthy params key serialized st value
              Hkey (or_introl Habsent) Hpass Hser)
    as (st1' & Hfirst & _ & Hcalls1 & Hwrites1).
  assert (Hst1 : st1 = st1') by (unfold st1; rewrite Hfirst; reflexivity).
  destruct (del_healthy E Hhealthy key (RedisCache.pool st1)) as (w' & n & Hdel & _).
  assert (Hinv : RedisCache.invalidate E options params st1
                 = (Js.Resolved tt,
                    {| RedisCache.pool := w';
                       RedisCache.calls := RedisCache.calls st1;
                       RedisCache.writes := RedisCache.writes st1 |}))
    by (rewrite (invalidate_unfold E options params key st1 Hkey), Hdel;
        reflexivity).
  split; [rewrite Hinv; reflexivity|].
  assert (Hwrites2 : RedisCache.writes st2
                     = RedisCache.writes st ++ [(key, serialized)])
    by (unfold st2; rewrite Hinv; cbn [snd RedisCache.writes];
        rewrite Hst1; exact Hwrites1).
  destruct (flush_lands E options Hhealthy key serialized (RedisCache.writes st)
              st2 Httl Hwrites2) as [[t Hheld] Hcalls3].
  fold st3 in Hheld, Hcalls3.
  destruct (cache_get_healthy E options Hhealthy key st3) as (st4 & Hget & _).
  unfold RedisCache.cached in Hget. rewrite Hheld in Hget.
  destruct (String.eqb_spec serialized EmptyString) as [?|_]; [contradiction|].
  rewrite Hdes in Hget.
  destruct (proxy_hit E options params key st3 st4 cachedValue Hkey Hget Htruthy)
    as [Hproxy Hcalls4].
  rewrite Hproxy. cbn [fst snd]. split; [reflexivity|].
  rewrite Hcalls4, Hcalls3. unfold st2. rewrite Hinv. cbn [snd RedisCache.calls].
  rewrite Hst1. exact Hcalls1.
Qed.

Lemma invalidate_overtaken_by_write_back_witness :
  let st1 := (RedisCache.proxy Samples.calm Samples.letters "bob" Samples.start).2 in
  let st2 := (RedisCache.invalidate Samples.calm Samples.letters "bob" st1).2 in
  let st3 := RedisCache.flush Samples.calm Samples.letters st2 in
  (RedisCache.proxy Samples.calm Samples.letters "bob" st3).1
  = Js.Resolved (Js.VNum 3)
  ∧ RedisCache.calls (RedisCache.proxy Samples.calm Samples.letters "bob" st3).2
    = ["bob"].
Proof.
  destruct (invalidate_overtaken_by_write_back Samples.calm Samples.letters "bob"
              "letters:bob" "3" (Js.VNum 3) (Js.VNum 3) Samples.start calm_healthy
              ltac:(intros n [= <-]; lia) eq_refl eq_refl eq_refl eq_refl
              ltac:(discriminate) eq_refl eq_refl) as (_ & Hout & Hcalls).
  split; [exact Hout | exact Hcalls].
Defined.

(** [proxy], value that cannot be served back: when what the passthrough
    gives serializes to the empty string, or to a string that
    deserializes to a falsy value, the write-back reaches the store and
    the next call misses all the same: the passthrough is invoked by
    every call. *)
Theorem proxy_uncacheable_value {Params : Type} (E : RedisPool.env)
    (options : RedisCache.CacheOptions Params) (params : Params)
    (key serialized : string) (value : Js.jsval) (st : RedisCache.state Params) :
  RedisPool.healthy E →
  (∀ n, RedisCache.ttl options = Some n → 0 ≤ n) →
  RedisCache.serializeKey options params = inr key →
  RedisPool.store (RedisCache.pool st) !! key = None →
  RedisCache.passthrough options params = Js.Resolved value →
  RedisCache.serializeValue options value = inr serialized →
  serialized = EmptyString
  ∨ (∃ v, RedisCache.deserializeValue options (Js.VStr serialized) = inr v
          ∧ Js.truthy v = false) →
  let st2 :=
    RedisCache.flush E options (RedisCache.proxy E options params st).2 in
  (∃ t, RedisPool.store (RedisCache.pool st2) !! key = Some (serialized, t))
  ∧ (RedisCache.proxy E options params st2).1 = Js.Resolved value
  ∧ RedisCache.calls (RedisCache.proxy E options params st2).2
    = RedisCache.calls st ++ [params; params].
Proof.
  intros Hhealthy Httl Hkey Habsent Hpass Hser Hbad st2.
  destruct (proxy_miss_run E options Hhealthy params key serialized st value
              Hkey (or_introl Habsent) Hpass Hser)
    as (st1 & Hfirst & _ & Hcalls1 & Hwrites1).
  unfold st2. rewrite Hfirst. cbn [snd].
  destruct (flush_lands E options Hhealthy key serialized (RedisCache.writes st)
              st1 Httl Hwrites1) as [[t Hheld] Hcalls2].
  split; [exists t; exact Hheld|].
  assert (Hmiss : RedisPool.store (RedisCache.pool (RedisCache.flush E options st1))
                  !! key = None
                  ∨ (∃ t', RedisPool.store
                             (RedisCache.pool (RedisCache.flush E options st1))
                           !! key = Some (EmptyString, t'))
                  ∨ (∃ s t' v,
                        RedisPool.store
                          (RedisCache.pool (RedisCache.flush E options st1))
                        !! key = Some (s, t')
                        ∧ RedisCache.deserializeValue options (Js.VStr s) = inr v
                        ∧ Js.truthy v = false)).
  { destruct Hbad as [Hempty|(v & Hdes & Hfalsy)].
    - right. left. exists t. rewrite <- Hempty. exact Hheld.
    - right. right. exists serialized, t, v. repeat split; assumption. }
  destruct (proxy_miss_run E options Hhealthy params key serialized
              (RedisCache.flush E options st1) value Hkey Hmiss Hpass Hser)
    as (st3 & Hsecond & _ & Hcalls3 & _).
  rewrite Hsecond. cbn [fst snd]. split; [reflexivity|].
  rewrite Hcalls3, Hcalls2, Hcalls1, <- app_assoc. reflexivity.
Qed.

Lemma proxy_uncacheable_value_witness :
  let st2 :=
    RedisCache.flush Samples.calm Samples.letters
      (RedisCache.proxy Samples.calm Samples.letters EmptyString Samples.start).2 in
  (RedisCache.proxy Samples.calm Samples.letters EmptyString st2).1
  = Js.Resolved (Js.VNum 0)
  ∧ RedisCache.calls
      (RedisCache.proxy Samples.calm Samples.letters EmptyString st2).2
    = [EmptyString; EmptyString].
Proof.
  destruct (proxy_uncacheable_value Samples.calm Samples.letters EmptyString
              "letters:" "0" (Js.VNum 0) Samples.start calm_healthy
              ltac:(intros n [= <-]; lia) eq_refl eq_refl eq_refl eq_refl
              (or_intror (ex_intro _ (Js.VNum 0) (conj eq_refl eq_refl))))
    as (_ & Hout & Hcalls).
  split; [exact Hout | exact Hcalls].
Defined.

(* ===================================================================== *)
(** * A further property of [formatDuration] *)
(* ===================================================================== *)

(** [formatDuration], last half microsecond of a second: the milliseconds
    are rounded up to 1000.00 and are not carried into the seconds, which
    are printed as they were read. *)
Theorem formatDuration_no_carry (wholeSeconds nanoseconds : Z) :
  999999500 < nanoseconds < 1000000000 →
  1 ≤ wholeSeconds < 60 →
  Utils.formatDuration (0, nanoseconds) = "1000.00ms"
  ∧ Utils.formatDuration (wholeSeconds, nanoseconds)
    = Utils.show wholeSeconds +:+ "sec 1000.00ms".
Proof.
  intros Hns Hws.
  assert (Hms : Utils.toPrecision6 nanoseconds
                = [ "1"; "0"; "0"; "0"; "."; "0"; "0" ]%char).
  { unfold Utils.toPrecision6.
    destruct (Z.eqb_spec nanoseconds 0) as [?|_]; [lia|].
    destruct (Z.ltb_spec nanoseconds 0) as [?|_]; [lia|].
    rewrite Z.abs_eq by lia.
    assert (Hscale : Utils.scale nanoseconds = (100000, 3)).
    { destruct (scale_spec nanoseconds 9 ltac:(lia) ltac:(simpl; lia))
        as (n & e & -> & Hn & He & _ & Hnear).
      specialize (Hnear ltac:(lia)). change (10 ^ (9 - 6)) with 1000 in Hnear.
      assert (He' : e = 2 ∨ e = 3) by lia.
      destruct He' as [-> | ->].
      - change (10 ^ (2 + 1)) with 1000 in Hnear. lia.
      - change (10 ^ (3 + 1)) with 10000 in Hnear.
        assert (n = 100000) by lia. subst n. reflexivity. }
    rewrite Hscale. reflexivity. }
  unfold Utils.formatDuration, Utils.oneMinute. rewrite Hms.
  split; [reflexivity|].
  destruct (Z.ltb_spec wholeSeconds 1); [lia|].
  destruct (Z.ltb_spec wholeSeconds 60); [reflexivity | lia].
Qed.

Lemma formatDuration_no_carry_witness :
  Utils.formatDuration (0, 999999999) = "1000.00ms"
  ∧ Utils.formatDuration (59, 999999999) = "59sec 1000.00ms".
Proof.
  exact (formatDuration_no_carry 59 999999999 ltac:(lia) ltac:(lia)).
Defined.
